(** * Factoring-Demonstration: a shallow embedding of [factor.py] in Rocq

    Python integers are unbounded; they are modelled as [Z].  Python's [//]
    and [%] with a positive right operand are [Z.div] and [Z.modulo].
    Every [while] loop of the source is a recursion on a fuel argument; an
    exhausted fuel is the outcome [OutOfFuel], and the adequacy lemmas below
    show that the fuel chosen for each loop is never exhausted on the inputs
    the claims are about.  Exceptions raised by Python are the outcome
    [Raised]. *)

From Stdlib Require Import ZArith Lia List String Bool.
From Stdlib Require Import Zdivisibility Znumtheory Zpow_facts.
From Stdlib Require Import Sorting.Sorted Permutation.
From Stdlib Require Zmod.ZmodInv.
Import ListNotations.

Local Open Scope Z_scope.

(** ** Outcomes of a Python call *)

Inductive exn :=
| OverflowError   (** int too large to convert to float *)
| TypeError       (** int() of a complex number, or calling [None] *)
| ValueError.     (** math.isqrt of a negative number *)

Inductive outcome (A : Type) :=
| Returned (a : A)
| Raised (e : exn)
| OutOfFuel.

Arguments Returned {A} a.
Arguments Raised {A} e.
Arguments OutOfFuel {A}.

Definition bind {A B} (m : outcome A) (k : A -> outcome B) : outcome B :=
  match m with
  | Returned a => k a
  | Raised e => Raised e
  | OutOfFuel => OutOfFuel
  end.

Notation "x <- m ;; k" := (bind m (fun x => k))
  (at level 61, m at next level, right associativity).
Notation "' p <- m ;; k" := (bind m (fun x => match x with p => k end))
  (at level 61, p pattern, m at next level, right associativity).

(** ** Conversions between int and float

    CPython converts an int to a double with round-half-even and raises
    [OverflowError] when the rounded value reaches [2^1024]: that happens
    exactly when [|n| >= 2^1024 - 2^970] (the midpoint between the largest
    double [(2^53-1)*2^971] and [2^1024], a tie that rounds to the even
    [2^1024]). *)

Definition float_overflow_bound : Z := 2 ^ 1024 - 2 ^ 970.

Definition int_to_float_overflows (n : Z) : bool :=
  float_overflow_bound <=? Z.abs n.

(** [float(x)] for an int [0 <= x] in range: [x] rounded to 53 significant
    bits, ties to even.  Every double of this size holds an integer, so the
    result is an integer: [q * 2^sh] with [q] the 53 leading bits, or the
    next multiple of [2^sh]. *)
Definition round_double_nonneg (x : Z) : Z :=
  if x <? 2 ^ 53 then x
  else
    let sh := Z.log2 x - 52 in
    let q := x / 2 ^ sh in
    let rem := x mod 2 ^ sh in
    let half := 2 ^ (sh - 1) in
    if (half <? rem) || ((rem =? half) && Z.odd q) then (q + 1) * 2 ^ sh
    else q * 2 ^ sh.

Definition float_of_int (n : Z) : Z := Z.sgn n * round_double_nonneg (Z.abs n).

(** The integer nearest to [sqrt(x) / 2^w] (ties to even), for [x, w >= 0]:
    [f] is the floor, and [f + 1] is taken when
    [sqrt(x) > (f + 1/2) 2^w], i.e. [4 x > (2 f + 1)^2 4^w]. *)
Definition rn_sqrt_div (x w : Z) : Z :=
  let f := Z.sqrt x / 2 ^ w in
  let l := 4 * x in
  let r := (2 * f + 1) ^ 2 * 4 ^ w in
  if (r <? l) || ((l =? r) && Z.odd f) then f + 1 else f.

(** [int(math.sqrt(x))] for a double [x >= 0] holding an integer: IEEE-754
    [sqrt] rounds the exact root to 53 significant bits (to nearest, ties to
    even), and [int()] truncates.  With [2^e <= sqrt x < 2^(e+1)],
    [e = log2 x / 2], the unit of the last place is [2^u], [u = e - 52]: for
    [u <= 0] the root is rounded at [sqrt(x 4^-u)] and divided back, for
    [u > 0] it is rounded at [sqrt(x) / 2^u] and multiplied back. *)
Definition floor_rn_sqrt (x : Z) : Z :=
  if x <=? 0 then 0
  else
    let u := Z.log2 x / 2 - 52 in
    if u <=? 0 then rn_sqrt_div (x * 4 ^ (- u)) 0 / 2 ^ (- u)
    else rn_sqrt_div x u * 2 ^ u.

(** [int(math.sqrt(n))] in [is_prime_trial_division]: the conversion to
    double, then the correctly rounded [sqrt].  Only non-negative [n] reach
    it. *)
Definition int_math_sqrt (n : Z) : outcome Z :=
  if int_to_float_overflows n then Raised OverflowError
  else Returned (floor_rn_sqrt (float_of_int n)).

(** [n ** 0.5] calls the C library's [pow(x, 0.5)], which the C standard
    does not require to be correctly rounded (glibc's [pow] is within one
    unit in the last place, and differs from [sqrt] on some inputs).  The
    library is a parameter: [pow_half x] is [int(pow(x, 0.5))] for a double
    [x >= 0] holding an integer.  Theorems quantify over every [Libm]; the
    instance [correctly_rounded_libm] (the IEEE-754 [sqrt]) serves to
    evaluate examples.  The one requirement is the one of Annex F of the C
    standard that the code relies on: [pow(+0, 0.5) = +0]. *)
Class Libm := {
  pow_half : Z -> Z;
  pow_half_zero : pow_half 0 = 0
}.

Definition correctly_rounded_libm : Libm :=
  {| pow_half := floor_rn_sqrt; pow_half_zero := eq_refl |}.

(** [int(n ** 0.5)] in [factorize_brute_force].  The int operand is
    converted to double first ([OverflowError] out of range); a negative
    base with the exponent [0.5] gives a Python [complex], and [int()] of a
    complex raises [TypeError]. *)
Definition int_pow_half `{Libm} (n : Z) : outcome Z :=
  if int_to_float_overflows n then Raised OverflowError
  else if n <? 0 then Raised TypeError
  else Returned (pow_half (float_of_int n)).

(** ** Section 2A: [factorize_brute_force] *)

(** The inner loop [while n % i == 0: factors.append(i); n //= i]. *)
Fixpoint strip (fuel : nat) (i n : Z) (factors : list Z)
  : outcome (Z * list Z) :=
  match fuel with
  | O => OutOfFuel
  | S fuel' =>
      if n mod i =? 0 then strip fuel' i (n / i) (factors ++ [i])
      else Returned (n, factors)
  end.

(** The outer loop [for i in range(i, stop)], [count] iterations left. *)
Fixpoint trial_loop (count : nat) (i n : Z) (factors : list Z)
  : outcome (Z * list Z) :=
  match count with
  | O => Returned (n, factors)
  | S count' =>
      '(n', factors') <- strip (S (Z.to_nat n)) i n factors ;;
      trial_loop count' (i + 1) n' factors'
  end.

Definition factorize_brute_force `{Libm} (n : Z) : outcome (list Z) :=
  r <- int_pow_half n ;;
  '(n', factors) <- trial_loop (Z.to_nat (r + 1 - 2)) 2 n [] ;;
  Returned (if n' >? 1 then factors ++ [n'] else factors).

(** Product of a factor list. *)
Definition prod (l : list Z) : Z := fold_right Z.mul 1 l.

(** ** Section 2B: [pollards_rho_factorize] *)

(** The local [gcd]: [while b != 0: a, b = b, a % b]; [return a]. *)
Fixpoint py_gcd (fuel : nat) (a b : Z) : outcome Z :=
  match fuel with
  | O => OutOfFuel
  | S fuel' => if b =? 0 then Returned a else py_gcd fuel' b (a mod b)
  end.

(** [f = lambda x: (x**2 + 1) % n]. *)
Definition rho_f (n x : Z) : Z := (x ^ 2 + 1) mod n.

(** The loop [while d == 1] of [pollard_rho]; the initial [d = 1] makes the
    body run at least once. *)
Fixpoint rho_loop (fuel : nat) (n x y : Z) : outcome Z :=
  match fuel with
  | O => OutOfFuel
  | S fuel' =>
      let x' := rho_f n x in
      let y' := rho_f n (rho_f n y) in
      d <- py_gcd (S (Z.to_nat n)) (Z.abs (x' - y')) n ;;
      if d =? 1 then rho_loop fuel' n x' y' else Returned d
  end.

Definition rho_fuel (n : Z) : nat := S (Z.to_nat n * Z.to_nat n).

Definition pollard_rho (n : Z) : outcome Z := rho_loop (rho_fuel n) n 2 2.

(** The outer loop [while n > 1]. *)
Fixpoint rho_factor_loop (fuel : nat) (n : Z) (factors : list Z)
  : outcome (list Z) :=
  match fuel with
  | O => OutOfFuel
  | S fuel' =>
      if n >? 1 then
        factor <- pollard_rho n ;;
        rho_factor_loop fuel' (n / factor) (factors ++ [factor])
      else Returned factors
  end.

Definition pollards_rho_factorize (n : Z) : outcome (list Z) :=
  rho_factor_loop (S (Z.to_nat n)) n [].

(** ** The random source

    The module-level generator of [random] is a stream of raw draws;
    [random.randint(lo, hi)] consumes one and returns a value of
    [[lo, hi]].  Every sequence of values of [[lo, hi]] is produced by some
    stream, so quantifying over streams quantifies over all base choices. *)

Definition Rng := nat -> Z.

Definition randint (lo hi : Z) (s : Rng) : Z * Rng :=
  (lo + s O mod (hi - lo + 1), fun i => s (S i)).

(** ** Section 1A: [miller_rabin_test] *)

(** [while d % 2 == 0: r += 1; d //= 2]. *)
Fixpoint two_adic (fuel : nat) (r d : Z) : outcome (Z * Z) :=
  match fuel with
  | O => OutOfFuel
  | S fuel' => if d mod 2 =? 0 then two_adic fuel' (r + 1) (d / 2)
               else Returned (r, d)
  end.

(** [for _ in range(r - 1): x = pow(x, 2, n); if x == n - 1: return False];
    then [return True]. *)
Fixpoint square_loop (count : nat) (n x : Z) : bool :=
  match count with
  | O => true
  | S count' =>
      let x' := x ^ 2 mod n in
      if x' =? n - 1 then false else square_loop count' n x'
  end.

Definition is_witness (n r d a : Z) : bool :=
  let x := a ^ d mod n in
  if (x =? 1) || (x =? n - 1) then false
  else square_loop (Z.to_nat (r - 1)) n x.

(** [for _ in range(k): a = random.randint(2, n - 2); if is_witness(a):
    return False]. *)
Fixpoint mr_rounds (count : nat) (n r d : Z) (s : Rng) : bool * Rng :=
  match count with
  | O => (true, s)
  | S count' =>
      let (a, s') := randint 2 (n - 2) s in
      if is_witness n r d a then (false, s') else mr_rounds count' n r d s'
  end.

Definition miller_rabin_test (n k : Z) (s : Rng) : outcome bool * Rng :=
  if n <=? 1 then (Returned false, s)
  else if n <=? 3 then (Returned true, s)
  else
    match two_adic (S (Z.to_nat (n - 1))) 0 (n - 1) with
    | Returned (r, d) =>
        let (b, s') := mr_rounds (Z.to_nat k) n r d s in (Returned b, s')
    | Raised e => (Raised e, s)
    | OutOfFuel => (OutOfFuel, s)
    end.

(** ** Section 1B: [is_prime_baillie_psw] *)

(** [math.isqrt] raises [ValueError] on a negative argument. *)
Definition is_perfect_square (n : Z) : outcome bool :=
  if n <? 0 then Raised ValueError
  else let sqrt_n := Z.sqrt n in Returned (sqrt_n * sqrt_n =? n).

(** [while divisor <= max_divisor: ...; divisor += 6]. *)
Fixpoint wheel_loop (fuel : nat) (n divisor max_divisor : Z) : outcome bool :=
  match fuel with
  | O => OutOfFuel
  | S fuel' =>
      if divisor <=? max_divisor then
        if (n mod divisor =? 0) || (n mod (divisor + 2) =? 0)
        then Returned false
        else wheel_loop fuel' n (divisor + 6) max_divisor
      else Returned true
  end.

Definition is_prime_trial_division (n : Z) : outcome bool :=
  if n <? 2 then Returned false
  else if (n =? 2) || (n =? 3) then Returned true
  else if (n mod 2 =? 0) || (n mod 3 =? 0) then Returned false
  else
    max_divisor <- int_math_sqrt n ;;
    wheel_loop (S (Z.to_nat max_divisor)) n 5 max_divisor.

Definition is_prime_baillie_psw (n : Z) : outcome bool :=
  if n <? 2 then Returned false
  else if (n =? 2) || (n =? 3) || (n =? 5) then Returned true
  else if (n mod 2 =? 0) || (n mod 3 =? 0) || (n mod 5 =? 0)
  then Returned false
  else
    sq4 <- is_perfect_square (5 * n * n + 4) ;;
    sq <- (if sq4 then Returned true else is_perfect_square (5 * n * n - 4)) ;;
    if sq then Returned false else is_prime_trial_division n.

(** ** Section 1C: [is_prime_aks]

    [is_prime_aks] returns [sympy.isprime(n)] unchanged.  The library
    routine is outside this repository; it is modelled by an exact primality
    test: [n >= 2] and no [d] with [2 <= d < n] divides [n]. *)

(** [no_divisor n k]: none of [2, ..., k + 1] divides [n]. *)
Fixpoint no_divisor (n : Z) (k : nat) : bool :=
  match k with
  | O => true
  | S k' => negb (n mod (Z.of_nat k' + 2) =? 0) && no_divisor n k'
  end.

Definition sympy_isprime (n : Z) : bool :=
  (2 <=? n) && no_divisor n (Z.to_nat (n - 2)).

Definition is_prime_aks (n : Z) : outcome bool := Returned (sympy_isprime n).

(** ** Method selection and drivers

    A strategy is called on an integer and the current random state.  The
    deterministic strategies leave the state alone; Miller-Rabin, called
    with one argument through the dispatch table, runs [k = 5] rounds.
    Printed lines are recorded as events. *)

Definition strategy (A : Type) := Z -> Rng -> outcome A * Rng.

Definition pure_strategy {A} (f : Z -> outcome A) : strategy A :=
  fun n s => (f n, s).

Inductive line :=
| Msg (s : string)
| FactorsOf (n : Z) (result : list Z)
| IsPrime (n : Z) (result : bool).

Definition get_factor_method `{Libm} (method : Z) : option (strategy (list Z)) * list line :=
  if method =? 1 then
    (Some (pure_strategy factorize_brute_force), [Msg "Brute Force Factorization:"])
  else if method =? 2 then
    (Some (pure_strategy pollards_rho_factorize), [Msg "Pollards Rho Algorithm:"])
  else (None, [Msg "Invalid method selected."]).

Definition get_prime_check_method (method : Z) : option (strategy bool) * list line :=
  if method =? 1 then
    (Some (fun n => miller_rabin_test n 5), [Msg "Miller-Rabin Primality Test:"])
  else if method =? 2 then
    (Some (pure_strategy is_prime_baillie_psw), [Msg "Baillie-PSW Test:"])
  else if method =? 3 then
    (Some (pure_strategy is_prime_aks), [Msg "AKS Primality Test:"])
  else (None, [Msg "Invalid method selected."]).

(** Calling the value returned by a selector: calling [None] raises
    [TypeError]. *)
Definition call {A} (f : option (strategy A)) (n : Z) (s : Rng) : outcome A * Rng :=
  match f with
  | Some g => g n s
  | None => (Raised TypeError, s)
  end.

(** The list comprehension [[(num, test_func(num)) for num in num_list]]. *)
Fixpoint map_call {A} (f : option (strategy A)) (nums : list Z) (s : Rng)
  : outcome (list (Z * A)) * Rng :=
  match nums with
  | [] => (Returned [], s)
  | n :: rest =>
      match call f n s with
      | (Returned a, s') =>
          match map_call f rest s' with
          | (Returned l, s'') => (Returned ((n, a) :: l), s'')
          | (Raised e, s'') => (Raised e, s'')
          | (OutOfFuel, s'') => (OutOfFuel, s'')
          end
      | (Raised e, s') => (Raised e, s')
      | (OutOfFuel, s') => (OutOfFuel, s')
      end
  end.

(** A driver run: the printed lines, the outcome and the final random
    state. *)
Definition run := (list line * outcome unit * Rng)%type.

Definition factor_num `{Libm} (method num : Z) (s : Rng) : run :=
  let (f, out) := get_factor_method method in
  match call f num s with
  | (Returned l, s') => (out ++ [FactorsOf num l], Returned tt, s')
  | (Raised e, s') => (out, Raised e, s')
  | (OutOfFuel, s') => (out, OutOfFuel, s')
  end.

Definition factor_nums `{Libm} (method : Z) (nums : list Z) (s : Rng) : run :=
  let (f, out) := get_factor_method method in
  match map_call f nums s with
  | (Returned rs, s') =>
      (out ++ map (fun '(n, l) => FactorsOf n l) rs, Returned tt, s')
  | (Raised e, s') => (out, Raised e, s')
  | (OutOfFuel, s') => (out, OutOfFuel, s')
  end.

Definition check_if_num_prime (method num : Z) (s : Rng) : run :=
  let (f, out) := get_prime_check_method method in
  match call f num s with
  | (Returned b, s') => (out ++ [IsPrime num b], Returned tt, s')
  | (Raised e, s') => (out, Raised e, s')
  | (OutOfFuel, s') => (out, OutOfFuel, s')
  end.

Definition check_if_numslist_prime (method : Z) (nums : list Z) (s : Rng) : run :=
  let (f, out) := get_prime_check_method method in
  match map_call f nums s with
  | (Returned rs, s') =>
      (out ++ map (fun '(n, b) => IsPrime n b) rs, Returned tt, s')
  | (Raised e, s') => (out, Raised e, s')
  | (OutOfFuel, s') => (out, OutOfFuel, s')
  end.

(** ** Helper: [generate_random_numbers]

    [generate_random_numbers(lower, upper, k)] returns
    [random.sample(range(lower, upper + 1), k)].  The library routine (the
    CPython 3.11 [Random.sample], without [counts]) is modelled as written
    there; its [randbelow(m)] draws a value of [[0, m)] from the stream, as
    [randint] above does. *)

Definition randbelow (m : Z) (s : Rng) : Z * Rng :=
  (s O mod m, fun i => s (S i)).

(** [l[j] = v] on a list; every index used below is in range. *)
Fixpoint set_nth (j : nat) (v : Z) (l : list Z) : list Z :=
  match l, j with
  | [], _ => []
  | _ :: t, O => v :: t
  | h :: t, S j' => h :: set_nth j' v t
  end.

(** The list branch: [for i in range(k): j = randbelow(n - i);
    result[i] = pool[j]; pool[j] = pool[n - i - 1]], [count] iterations
    left, [result] filled from the left. *)
Fixpoint pool_loop (count : nat) (n i : Z) (pool result : list Z) (s : Rng)
  : list Z * Rng :=
  match count with
  | O => (result, s)
  | S c =>
      let (j, s') := randbelow (n - i) s in
      let x := nth (Z.to_nat j) pool 0 in
      let pool' := set_nth (Z.to_nat j) (nth (Z.to_nat (n - i - 1)) pool 0) pool in
      pool_loop c n (i + 1) pool' (result ++ [x]) s'
  end.

(** [while j in selected: j = randbelow(n)].  The loop need not end for
    every stream of draws; [fuel] bounds the number of redraws.  It is a
    parameter of the model: a run of CPython that ends is the run of the
    model for every [fuel] past its number of redraws, and the theorems
    below hold for every [fuel]. *)
Fixpoint redraw (fuel : nat) (n : Z) (selected : list Z) (j : Z) (s : Rng)
  : outcome Z * Rng :=
  match fuel with
  | O => (OutOfFuel, s)
  | S fuel' =>
      if existsb (Z.eqb j) selected then
        let (j', s') := randbelow n s in redraw fuel' n selected j' s'
      else (Returned j, s)
  end.

(** The set branch: [for i in range(k): j = randbelow(n); while ...;
    selected_add(j); result[i] = population[j]], with
    [population[j] = lo + j]. *)
Fixpoint set_loop (fuel count : nat) (lo n : Z) (selected result : list Z) (s : Rng)
  : outcome (list Z) * Rng :=
  match count with
  | O => (Returned result, s)
  | S c =>
      let (j0, s1) := randbelow n s in
      match redraw fuel n selected j0 s1 with
      | (Returned j, s2) => set_loop fuel c lo n (selected ++ [j]) (result ++ [lo + j]) s2
      | (Raised e, s2) => (Raised e, s2)
      | (OutOfFuel, s2) => (OutOfFuel, s2)
      end
  end.

(** [_ceil(_log(x, 4))] for [x >= 1]: [ceil(log2 x / 2)], i.e.
    [ceil(ceil(log2 x) / 2)]; the float logarithm is taken as exact (the
    argument [3 k] is never a power of 4). *)
Definition ceil_log4 (x : Z) : Z := (Z.log2_up x + 1) / 2.

Definition sample_setsize (k : Z) : Z :=
  21 + (if k >? 5 then 4 ^ ceil_log4 (k * 3) else 0).

(** [sys.maxsize] on a 64-bit build: [len()] raises [OverflowError] on a
    length beyond it. *)
Definition py_ssize_max : Z := 2 ^ 63 - 1.

(** [random.sample(range(lo, hi + 1), k)]; [len(range(lo, hi + 1))] is
    [max(0, hi + 1 - lo)], and [n = len(population)] comes before the test
    on [k]. *)
Definition sample_range (fuel : nat) (lo hi k : Z) (s : Rng) : outcome (list Z) * Rng :=
  let n := Z.max 0 (hi + 1 - lo) in
  if py_ssize_max <? n then (Raised OverflowError, s)
  else if negb ((0 <=? k) && (k <=? n)) then (Raised ValueError, s)
  else if n <=? sample_setsize k then
    let pool := map (fun j => lo + Z.of_nat j) (seq 0 (Z.to_nat n)) in
    let (result, s') := pool_loop (Z.to_nat k) n 0 pool [] s in
    (Returned result, s')
  else set_loop fuel (Z.to_nat k) lo n [] [] s.

Definition generate_random_numbers (fuel : nat) (lower_limit upper_limit num_integers : Z)
  (s : Rng) : outcome (list Z) * Rng :=
  sample_range fuel lower_limit upper_limit num_integers s.

(** ** Auxiliary definitions for the proofs *)

(** [seqf n j] is the [j]-th iterate of [f] from [2]: after [t] rounds of
    [pollard_rho], [x = seqf n t] and [y = seqf n (2 * t)]. *)
Definition seqf (n : Z) (j : nat) : Z := Nat.iter j (rho_f n) 2.

(** The successive squares [a^(2^j d) mod n] of the test. *)
Definition xs (n a d : Z) (j : nat) : Z := a ^ (2 ^ Z.of_nat j * d) mod n.

(** A finite check over [[lo, lo + cnt)]. *)
Fixpoint all_in (f : Z -> bool) (lo : Z) (cnt : nat) : bool :=
  match cnt with
  | O => true
  | S cnt' => f lo && all_in f (lo + 1) cnt'
  end.

(** An integer above float precision whose double square root falls short
    of its smaller prime factor: [float(n) = 2^124], so [int(n ** 0.5)] and
    [int(math.sqrt(n))] give [2^62], while [isqrt(n) = 2^62 + 177]. *)
Definition n_float_gap : Z := (2 ^ 62 + 169) * (2 ^ 62 + 187).

(** The wheel of [is_prime_trial_division], described from the divisors it
    tries: for every [k >= 1] with [6k - 1 <= max], neither [6k - 1] nor
    [6k + 1] divides [n]. *)
Definition wheel_prop (n max : Z) : Prop :=
  forall k, 1 <= k -> 6 * k - 1 <= max -> n mod (6 * k - 1) <> 0 /\ n mod (6 * k + 1) <> 0.

(** * Proofs *)

(** ** Products and the gcd loop *)

Lemma prod_app (l1 l2 : list Z) : prod (l1 ++ l2) = prod l1 * prod l2.
Proof.
  unfold prod. induction l1 as [|x l1 IH]; cbn [app fold_right].
  - ring.
  - rewrite IH. ring.
Qed.

Lemma prod_snoc (l : list Z) (x : Z) : prod (l ++ [x]) = prod l * x.
Proof. rewrite prod_app. unfold prod at 2. cbn [fold_right]. ring. Qed.

(** With more fuel than [b], the Euclid loop computes [Z.gcd a b]. *)
Lemma py_gcd_correct (fuel : nat) (a b : Z) :
  0 <= a -> 0 <= b -> b < Z.of_nat fuel ->
  py_gcd fuel a b = Returned (Z.gcd a b).
Proof.
  revert a b. induction fuel as [|fuel IH]; intros a b Ha Hb Hf; [lia|].
  simpl. destruct (Z.eqb_spec b 0) as [->|Hb0].
  - rewrite Z.gcd_0_r, Z.abs_eq by lia. reflexivity.
  - pose proof (Z.mod_pos_bound a b ltac:(lia)).
    rewrite IH by lia. f_equal.
    rewrite (Z.gcd_comm b (a mod b)), Z.gcd_mod by lia. apply Z.gcd_comm.
Qed.

(** ** Trial division *)

Lemma strip_spec (fuel : nat) (i n : Z) (acc : list Z) :
  2 <= i -> 1 <= n -> (Z.to_nat n < fuel)%nat ->
  exists n' acc', strip fuel i n acc = Returned (n', acc') /\
    prod acc' * n' = prod acc * n /\ 1 <= n' /\ n' mod i <> 0 /\ (n' | n) /\
    (forall x, In x acc' -> In x acc \/ (x = i /\ (i | n))).
Proof.
  revert n acc. induction fuel as [|fuel IH]; intros n acc Hi Hn Hf; [lia|].
  simpl. destruct (Z.eqb_spec (n mod i) 0) as [Hm|Hm].
  - assert (Hd : (i | n)) by (apply Z.mod_divide; lia).
    assert (Hq : n = i * (n / i)) by (apply Z.div_exact; lia).
    assert (Hq1 : 1 <= n / i) by nia.
    assert (Hlt : n / i < n) by (apply Z.div_lt; lia).
    destruct (IH (n / i) (acc ++ [i])) as (n' & acc' & Hs & Hp & H1 & Hmod & Hdv & Hin);
      [lia | lia | lia |].
    exists n', acc'. split; [exact Hs|]. split.
    { rewrite Hp, prod_snoc. rewrite Hq at 2. ring. }
    split; [lia|]. split; [exact Hmod|]. split.
    { apply (Z.divide_trans _ (n / i)); auto. exists i. lia. }
    intros x Hx. destruct (Hin x Hx) as [Hx'|[-> Hx']].
      * apply in_app_or in Hx'. destruct Hx' as [Hx'|[<-|[]]]; auto.
      * right. split; auto.
  - exists n, acc. split; [reflexivity|]. split; [lia|]. split; [lia|].
    split; [exact Hm|]. split; [apply Z.divide_refl|]. auto.
Qed.

(** A divisor of an integer with no divisor in [[2, i)] has none either. *)
Lemma prime_of_least_divisor (i n : Z) :
  2 <= i -> (i | n) -> (forall d, 2 <= d < i -> ~ (d | n)) -> Z.prime i.
Proof.
  intros Hi Hd Hno. split; [lia|]. intros m Hm Hmi.
  apply (Hno m); [lia|]. eapply Z.divide_trans; eauto.
Qed.

Lemma trial_loop_spec (count : nat) (i n : Z) (acc : list Z) :
  2 <= i -> 1 <= n ->
  (forall x, In x acc -> Z.prime x) ->
  (forall d, 2 <= d < i -> ~ (d | n)) ->
  exists n' acc', trial_loop count i n acc = Returned (n', acc') /\
    prod acc' * n' = prod acc * n /\ 1 <= n' /\ (n' | n) /\
    (forall x, In x acc' -> Z.prime x) /\
    (forall d, 2 <= d < i + Z.of_nat count -> ~ (d | n')).
Proof.
  revert i n acc. induction count as [|count IH]; intros i n acc Hi Hn Hacc Hno.
  - exists n, acc. split; [reflexivity|].
    split; [lia|]. split; [lia|]. split; [apply Z.divide_refl|].
    split; [auto|]. intros d Hd. apply Hno. lia.
  - cbn [trial_loop].
    destruct (strip_spec (S (Z.to_nat n)) i n acc)
      as (n1 & acc1 & Hs & Hp & H1 & Hmod & Hdv & Hin); [lia | lia | lia |].
    rewrite Hs. cbn [bind].
    destruct (IH (i + 1) n1 acc1)
      as (n' & acc' & Hl & Hp' & H1' & Hdv' & Hacc' & Hno'); [lia | lia | | |].
    + intros x Hx. destruct (Hin x Hx) as [Hx'|[-> Hx']]; auto.
      apply (prime_of_least_divisor i n); auto.
    + intros d Hd Hdn. destruct (Z.eq_dec d i) as [->|Hne].
      * apply Hmod. apply Z.mod_divide; auto; lia.
      * apply (Hno d); [lia|]. eapply Z.divide_trans; eauto.
    + exists n', acc'. split; [exact Hl|]. split; [lia|]. split; [lia|].
      split; [eapply Z.divide_trans; eauto|]. split; [exact Hacc'|].
      intros d Hd. apply Hno'. lia.
Qed.

Lemma strongly_sorted_snoc (l : list Z) (x : Z) :
  StronglySorted Z.le l -> (forall y, In y l -> y <= x) ->
  StronglySorted Z.le (l ++ [x]).
Proof.
  induction l as [|a l IH]; intros Hs Hx; cbn [app].
  - repeat constructor.
  - inversion Hs as [|a' l' Hs' Hf]; subst. constructor.
    + apply IH; auto. intros y Hy. apply Hx. right. exact Hy.
    + apply Forall_app. split; [exact Hf|]. constructor; [apply Hx; left; reflexivity | constructor].
Qed.

Lemma strip_sorted (fuel : nat) (i n : Z) (acc : list Z) (n' : Z) (acc' : list Z) :
  strip fuel i n acc = Returned (n', acc') ->
  StronglySorted Z.le acc -> (forall y, In y acc -> y <= i) ->
  StronglySorted Z.le acc' /\ (forall y, In y acc' -> y <= i).
Proof.
  revert n acc. induction fuel as [|fuel IH]; intros n acc H Hs Hb; [discriminate|].
  cbn [strip] in H. destruct (n mod i =? 0).
  - apply (IH _ _ H).
    + apply strongly_sorted_snoc; auto.
    + intros y Hy. apply in_app_or in Hy. destruct Hy as [Hy|[<-|[]]]; auto; lia.
  - injection H as _ <-. auto.
Qed.

Lemma trial_loop_sorted (count : nat) (i n : Z) (acc : list Z) (n' : Z) (acc' : list Z) :
  trial_loop count i n acc = Returned (n', acc') ->
  StronglySorted Z.le acc -> (forall y, In y acc -> y < i) ->
  StronglySorted Z.le acc' /\ (forall y, In y acc' -> y < i + Z.of_nat count).
Proof.
  revert i n acc. induction count as [|count IH]; intros i n acc H Hs Hb.
  - injection H as _ <-. split; [exact Hs|]. intros y Hy. specialize (Hb y Hy). lia.
  - cbn [trial_loop] in H.
    destruct (strip (S (Z.to_nat n)) i n acc) as [[n1 acc1]| e |] eqn:Es;
      cbn [bind] in H; try discriminate.
    destruct (strip_sorted _ _ _ _ _ _ Es Hs) as [Hs1 Hb1].
    { intros y Hy. specialize (Hb y Hy). lia. }
    destruct (IH _ _ _ H Hs1) as [Hs2 Hb2].
    { intros y Hy. specialize (Hb1 y Hy). lia. }
    split; [exact Hs2|]. intros y Hy. specialize (Hb2 y Hy). lia.
Qed.

Lemma Forall_removelast {A} (P : A -> Prop) (l : list A) :
  Forall P l -> Forall P (removelast l).
Proof.
  induction l as [|x l IH]; intros H; [constructor|].
  inversion H as [|x' l' Hx Hl]; subst. destruct l as [|y l]; [constructor|].
  cbn [removelast]. constructor; [exact Hx | apply IH; exact Hl].
Qed.

(** [factorize_brute_force] in float range, whatever the bound [int(n ** 0.5)]
    of the loop: the list multiplies to [n], every factor is at least 2, the
    list is sorted, and all factors but the last (the cofactor left after the
    loop) are prime. *)
Lemma brute_force_factorization `{Libm} (n : Z) :
  1 <= n -> n < float_overflow_bound ->
  exists l, factorize_brute_force n = Returned l /\ prod l = n /\
    Forall (fun f => 2 <= f) l /\ Sorted Z.le l /\ Forall Z.prime (removelast l).
Proof.
  intros Hn Hb. unfold factorize_brute_force, int_pow_half, int_to_float_overflows.
  replace (float_overflow_bound <=? Z.abs n) with false
    by (symmetry; apply Z.leb_gt; rewrite Z.abs_eq; lia).
  replace (n <? 0) with false by (symmetry; apply Z.ltb_ge; lia).
  cbn [bind]. set (r := pow_half (float_of_int n)).
  destruct (trial_loop_spec (Z.to_nat (r + 1 - 2)) 2 n [])
    as (n' & acc' & Hl & Hp & H1 & Hdv & Hacc & Hno);
    [lia | lia | intros x [] | intros d Hd; lia |].
  destruct (trial_loop_sorted _ _ _ _ _ _ Hl) as [Hs Hlt];
    [constructor | intros y [] |].
  rewrite Hl. cbn [bind]. change (prod []) with 1 in Hp.
  assert (Hge2 : Forall (fun f => 2 <= f) acc').
  { apply Forall_forall. intros x Hx. apply Z.prime_ge_2. auto. }
  destruct (Z.gtb_spec n' 1) as [Hgt|Hle].
  - exists (acc' ++ [n']). split; [reflexivity|]. split; [rewrite prod_snoc, Hp; ring|].
    split; [apply Forall_app; split; [exact Hge2 | constructor; [lia | constructor]]|].
    split.
    + apply StronglySorted_Sorted. apply strongly_sorted_snoc; [exact Hs|].
      assert (Hge : 2 + Z.of_nat (Z.to_nat (r + 1 - 2)) <= n').
      { destruct (Z.ltb_spec n' (2 + Z.of_nat (Z.to_nat (r + 1 - 2)))) as [Hc|Hc]; [|exact Hc].
        exfalso. apply (Hno n'); [lia | apply Z.divide_refl]. }
      intros y Hy. specialize (Hlt y Hy). lia.
    + rewrite removelast_last. apply Forall_forall. exact Hacc.
  - exists acc'. split; [reflexivity|]. split.
    { assert (n' = 1) by lia. subst. rewrite Z.mul_1_r in Hp. lia. }
    split; [exact Hge2|]. split; [apply StronglySorted_Sorted; exact Hs|].
    apply Forall_removelast. apply Forall_forall. exact Hacc.
Qed.

(** When no integer of [[i, i + count)] divides [n], the loop leaves [n]
    and the factor list unchanged. *)
Lemma trial_loop_nodiv (count : nat) (i n : Z) (acc : list Z) :
  2 <= i -> (forall d, i <= d < i + Z.of_nat count -> n mod d <> 0) ->
  trial_loop count i n acc = Returned (n, acc).
Proof.
  revert i. induction count as [|count IH]; intros i Hi Hno; [reflexivity|].
  cbn [trial_loop strip].
  replace (n mod i =? 0) with false by (symmetry; apply Z.eqb_neq; apply Hno; lia).
  cbn [bind]. apply IH; [lia|]. intros d Hd. apply Hno. lia.
Qed.

(** [factorize_brute_force] above float range raises. *)
Lemma brute_force_overflow `{Libm} (n : Z) :
  float_overflow_bound <= n -> factorize_brute_force n = Raised OverflowError.
Proof.
  intros Hn. unfold factorize_brute_force, int_pow_half, int_to_float_overflows.
  replace (float_overflow_bound <=? Z.abs n) with true
    by (symmetry; apply Z.leb_le; rewrite Z.abs_eq; [lia|];
        unfold float_overflow_bound in Hn; lia).
  reflexivity.
Qed.

(** ** Pollard's rho *)

Lemma seqf_S (n : Z) (j : nat) : seqf n (S j) = rho_f n (seqf n j).
Proof. reflexivity. Qed.

Lemma rho_f_range (n x : Z) : 0 < n -> 0 <= rho_f n x < n.
Proof. intros Hn. unfold rho_f. apply Z.mod_pos_bound. lia. Qed.

Lemma find_value (N : nat) (g : nat -> Z) (v : Z) :
  (exists i, (i <= N)%nat /\ g i = v) \/ (forall i, (i <= N)%nat -> g i <> v).
Proof.
  induction N as [|N IH].
  - destruct (Z.eq_dec (g 0%nat) v) as [E|E].
    + left. exists 0%nat. auto.
    + right. intros i Hi. replace i with 0%nat by lia. exact E.
  - destruct IH as [[i [Hi Hg]]|Hno].
    + left. exists i. split; [lia|exact Hg].
    + destruct (Z.eq_dec (g (S N)) v) as [E|E].
      * left. exists (S N). auto.
      * right. intros i Hi. destruct (Nat.eq_dec i (S N)) as [->|Hne]; auto.
        apply Hno. lia.
Qed.

(** The pigeonhole principle: [N + 1] values in [[0, N)] repeat. *)
Lemma pigeonhole (N : nat) (g : nat -> Z) :
  (forall i, (i <= N)%nat -> 0 <= g i < Z.of_nat N) ->
  exists i j, (i < j <= N)%nat /\ g i = g j.
Proof.
  revert g. induction N as [|N IH]; intros g Hg.
  - specialize (Hg 0%nat (le_n 0)). lia.
  - destruct (find_value N g (g (S N))) as [[i [Hi Hgi]]|Hno].
    + exists i, (S N). split; [lia|exact Hgi].
    + set (g' := fun i => if g i =? Z.of_nat N then g (S N) else g i).
      destruct (IH g') as (i & j & Hij & Heq).
      * intros i Hi. unfold g'. destruct (Z.eqb_spec (g i) (Z.of_nat N)) as [E|E].
        -- pose proof (Hg (S N) (le_n _)). pose proof (Hno i Hi). lia.
        -- pose proof (Hg i ltac:(lia)). lia.
      * exists i, j. split; [lia|]. unfold g' in Heq.
        destruct (Z.eqb_spec (g i) (Z.of_nat N)), (Z.eqb_spec (g j) (Z.of_nat N));
          try congruence.
        -- exfalso. apply (Hno j); [lia|]. congruence.
        -- exfalso. apply (Hno i); [lia|]. congruence.
Qed.

Lemma seqf_period (n : Z) (mu L : nat) :
  seqf n mu = seqf n (mu + L) ->
  forall m, seqf n (mu + m) = seqf n (mu + L + m).
Proof.
  intros H m. induction m as [|m IH].
  - rewrite !Nat.add_0_r. exact H.
  - rewrite !Nat.add_succ_r, !seqf_S, IH. reflexivity.
Qed.

Lemma seqf_period_mult (n : Z) (mu L : nat) :
  seqf n mu = seqf n (mu + L) ->
  forall c m, seqf n (mu + m) = seqf n (mu + c * L + m).
Proof.
  intros H c. induction c as [|c IH]; intros m.
  - f_equal. lia.
  - rewrite (seqf_period n mu L H m).
    replace (mu + L + m)%nat with (mu + (L + m))%nat by lia.
    rewrite IH. f_equal. lia.
Qed.

(** Floyd's cycle detection: the tortoise and the hare meet within
    [N * N] rounds, [N = n]. *)
Lemma floyd (n : Z) :
  2 <= n ->
  exists T, (1 <= T <= Z.to_nat n * Z.to_nat n)%nat /\ seqf n T = seqf n (2 * T).
Proof.
  intros Hn. set (N := Z.to_nat n).
  destruct (pigeonhole N (fun i => seqf n (S i))) as (i & j & Hij & Heq).
  { intros i _. rewrite seqf_S. unfold N. rewrite Z2Nat.id by lia.
    apply rho_f_range. lia. }
  set (mu := S i). set (L := (j - i)%nat).
  assert (Hper : seqf n mu = seqf n (mu + L)).
  { unfold mu, L. replace (S i + (j - i))%nat with (S j) by lia. exact Heq. }
  exists (L * mu)%nat. split.
  - unfold L, mu. split; [nia|]. apply Nat.mul_le_mono; lia.
  - replace (L * mu)%nat with (mu + (L * mu - mu))%nat at 1 by (unfold mu; nia).
    rewrite (seqf_period_mult n mu L Hper mu). f_equal. unfold mu. nia.
Qed.

(** One call of [pollard_rho] from round [t]: if the sequences collide at
    some round [T] within the fuel, it returns a divisor [d >= 2] of [n]. *)
Lemma rho_loop_spec (fuel : nat) (n : Z) (t : nat) :
  2 <= n ->
  (exists T, (t < T <= t + fuel)%nat /\ seqf n T = seqf n (2 * T)) ->
  exists d, rho_loop fuel n (seqf n t) (seqf n (2 * t)) = Returned d /\
    2 <= d /\ (d | n).
Proof.
  revert t. induction fuel as [|fuel IH]; intros t Hn [T [HT HE]]; [lia|].
  cbn [rho_loop]. cbv zeta.
  replace (rho_f n (seqf n t)) with (seqf n (S t)) by reflexivity.
  replace (rho_f n (rho_f n (seqf n (2 * t)))) with (seqf n (2 * S t))
    by (replace (2 * S t)%nat with (S (S (2 * t))) by lia; reflexivity).
  rewrite py_gcd_correct by (pose proof (Z.abs_nonneg (seqf n (S t) - seqf n (2 * S t))); lia).
  cbn [bind].
  destruct (Z.eqb_spec (Z.gcd (Z.abs (seqf n (S t) - seqf n (2 * S t))) n) 1) as [G|G].
  - apply IH; auto. exists T. split; [|exact HE].
    destruct (Nat.eq_dec T (S t)) as [->|Hne]; [|lia].
    rewrite HE, Z.sub_diag, Z.abs_0, Z.gcd_0_l, Z.abs_eq in G; lia.
  - eexists. split; [reflexivity|]. split.
    + pose proof (Z.gcd_nonneg (Z.abs (seqf n (S t) - seqf n (2 * S t))) n).
      assert (Z.gcd (Z.abs (seqf n (S t) - seqf n (2 * S t))) n <> 0).
      { intros G0. apply Z.gcd_eq_0 in G0. lia. }
      lia.
    + apply Z.gcd_divide_r.
Qed.

Lemma pollard_rho_spec (n : Z) :
  2 <= n -> exists d, pollard_rho n = Returned d /\ 2 <= d /\ (d | n).
Proof.
  intros Hn. destruct (floyd n Hn) as [T [HT HE]].
  apply (rho_loop_spec (rho_fuel n) n 0); auto.
  exists T. unfold rho_fuel. split; [lia|exact HE].
Qed.

Lemma rho_factor_loop_spec (fuel : nat) (n : Z) (acc : list Z) :
  1 <= n -> (Z.to_nat n < fuel)%nat ->
  exists l, rho_factor_loop fuel n acc = Returned l /\
    prod l = prod acc * n /\ (forall x, In x l -> In x acc \/ 2 <= x).
Proof.
  revert n acc. induction fuel as [|fuel IH]; intros n acc Hn Hf; [lia|].
  cbn [rho_factor_loop]. destruct (Z.gtb_spec n 1) as [Hgt|Hle].
  - destruct (pollard_rho_spec n) as (d & Hd & Hd2 & Hdn); [lia|].
    rewrite Hd. cbn [bind].
    assert (Hq : n = d * (n / d)).
    { apply Z.div_exact; [lia|]. apply Z.mod_divide; auto; lia. }
    assert (Hlt : n / d < n) by (apply Z.div_lt; lia).
    destruct (IH (n / d) (acc ++ [d])) as (l & Hl & Hp & Hin); [nia | lia |].
    exists l. split; [exact Hl|]. split.
    + rewrite Hp, prod_snoc. rewrite Hq at 2. ring.
    + intros x Hx. destruct (Hin x Hx) as [Hx'|Hx']; auto.
      apply in_app_or in Hx'. destruct Hx' as [Hx'|[<-|[]]]; auto.
  - exists acc. split; [reflexivity|]. split; [|auto].
    replace n with 1 by lia. ring.
Qed.

Lemma pollards_rho_factorize_spec (n : Z) :
  1 <= n ->
  exists l, pollards_rho_factorize n = Returned l /\ prod l = n /\
    Forall (fun f => 2 <= f) l.
Proof.
  intros Hn. destruct (rho_factor_loop_spec (S (Z.to_nat n)) n [])
    as (l & Hl & Hp & Hin); [lia | lia |].
  exists l. split; [exact Hl|]. split.
  - rewrite Hp. unfold prod. cbn [fold_right]. ring.
  - apply Forall_forall. intros x Hx. destruct (Hin x Hx) as [[]|H]; exact H.
Qed.

Lemma pollards_rho_factorize_small (n : Z) :
  n <= 1 -> pollards_rho_factorize n = Returned [].
Proof.
  intros Hn. unfold pollards_rho_factorize. cbn [rho_factor_loop].
  replace (n >? 1) with false by (symmetry; rewrite Z.gtb_ltb; apply Z.ltb_ge; lia).
  reflexivity.
Qed.

(** ** Miller-Rabin *)

Lemma two_adic_spec (fuel : nat) (r d : Z) :
  1 <= d -> (Z.to_nat d < fuel)%nat -> 0 <= r ->
  exists r' d', two_adic fuel r d = Returned (r', d') /\
    2 ^ r' * d' = 2 ^ r * d /\ d' mod 2 <> 0 /\ r <= r' /\ 1 <= d'.
Proof.
  revert r d. induction fuel as [|fuel IH]; intros r d Hd Hf Hr; [lia|].
  cbn [two_adic]. destruct (Z.eqb_spec (d mod 2) 0) as [E|E].
  - assert (Hq : d = 2 * (d / 2)) by (apply Z.div_exact; lia).
    assert (Hlt : d / 2 < d) by (apply Z.div_lt; lia).
    destruct (IH (r + 1) (d / 2)) as (r' & d' & H & Hp & Ho & Hr' & Hd');
      [lia | lia | lia |].
    exists r', d'. split; [exact H|]. split; [|lia].
    rewrite Hp, Z.pow_add_r by lia. rewrite Hq at 2. ring.
  - exists r, d. repeat (split; [reflexivity || lia|]). lia.
Qed.

Lemma xs_S (n a d : Z) (j : nat) :
  0 <= d -> 0 < n -> xs n a d (S j) = xs n a d j ^ 2 mod n.
Proof.
  intros Hd Hn. unfold xs. rewrite Z.mod_pow_l by lia.
  rewrite <- Z.pow_mul_r by (pose proof (Z.pow_nonneg 2 (Z.of_nat j)); nia).
  f_equal. f_equal. rewrite Nat2Z.inj_succ, Z.pow_succ_r by lia. ring.
Qed.

Lemma square_loop_spec (c : nat) (n a d : Z) (j : nat) :
  0 <= d -> 1 < n ->
  square_loop c n (xs n a d j) = true ->
  forall m, (1 <= m <= c)%nat -> xs n a d (j + m) <> n - 1.
Proof.
  revert j. induction c as [|c IH]; intros j Hd Hn H m Hm; [lia|].
  cbn [square_loop] in H. rewrite <- xs_S in H by lia.
  destruct (Z.eqb_spec (xs n a d (S j)) (n - 1)) as [E|E]; [discriminate|].
  destruct (Nat.eq_dec m 1) as [->|Hm1].
  - rewrite Nat.add_1_r. exact E.
  - replace (j + m)%nat with (S j + (m - 1))%nat by lia.
    apply IH; auto. lia.
Qed.

(** Modulo a prime, the square roots of 1 are 1 and [n - 1]. *)
Lemma sqrt_one_mod_prime (n x : Z) :
  Z.prime n -> 0 <= x < n -> x ^ 2 mod n = 1 -> x = 1 \/ x = n - 1.
Proof.
  intros Hp Hx H. pose proof (Z.prime_ge_2 _ Hp).
  assert (Hdiv : (n | (x - 1) * (x + 1))).
  { exists (x ^ 2 / n). pose proof (Z.div_mod (x ^ 2) n ltac:(lia)).
    rewrite H in *. rewrite Z.pow_2_r in *. lia. }
  apply Z.divide_prime_mul in Hdiv; auto.
  destruct Hdiv as [[k Hk]|[k Hk]].
  - left. assert (k = 0) by nia. subst. lia.
  - right. assert (k = 1) by nia. subst. lia.
Qed.

(** No base of [[1, n - 1]] is a witness of compositeness for a prime
    [n]. *)
Lemma is_witness_prime (n r d a : Z) :
  Z.prime n -> 0 <= r -> 1 <= d -> 2 ^ r * d = n - 1 -> 1 <= a <= n - 1 ->
  is_witness n r d a = false.
Proof.
  intros Hp Hr Hd Hnd Ha. pose proof (Z.prime_ge_2 _ Hp).
  destruct (is_witness n r d a) eqn:W; [exfalso|reflexivity].
  unfold is_witness in W.
  assert (Hx0 : a ^ d mod n = xs n a d 0) by (unfold xs; f_equal; f_equal; lia).
  rewrite Hx0 in W.
  destruct (Z.eqb_spec (xs n a d 0) 1) as [E1|E1]; [discriminate|].
  destruct (Z.eqb_spec (xs n a d 0) (n - 1)) as [E2|E2]; [discriminate|].
  simpl in W.
  pose proof (square_loop_spec _ n a d 0 ltac:(lia) ltac:(lia) W) as Hsq.
  assert (Hnot : forall m, (m <= Z.to_nat r)%nat -> xs n a d m <> 1).
  { intros m. induction m as [|m IH]; intros Hm; [exact E1|].
    intros E. rewrite xs_S in E by lia.
    assert (Hrange : 0 <= xs n a d m < n) by (apply Z.mod_pos_bound; lia).
    destruct (sqrt_one_mod_prime n _ Hp Hrange E) as [E'|E'].
    - apply IH; [lia | exact E'].
    - destruct m as [|m].
      + exact (E2 E').
      + apply (Hsq (S m)); [lia | exact E']. }
  apply (Hnot (Z.to_nat r)); [lia|].
  unfold xs. rewrite Z2Nat.id, Hnd by lia.
  apply ZmodInv.Z.fermat_nz; auto. rewrite Z.mod_small; lia.
Qed.

Lemma randint_range (lo hi : Z) (s : Rng) :
  lo <= hi -> lo <= fst (randint lo hi s) <= hi.
Proof.
  intros H. simpl. pose proof (Z.mod_pos_bound (s O) (hi - lo + 1) ltac:(lia)). lia.
Qed.

Lemma mr_rounds_no_witness (count : nat) (n r d : Z) (s : Rng) :
  4 <= n -> (forall a, 2 <= a <= n - 2 -> is_witness n r d a = false) ->
  fst (mr_rounds count n r d s) = true.
Proof.
  revert s. induction count as [|count IH]; intros s Hn Hw; [reflexivity|].
  cbn [mr_rounds].
  pose proof (randint_range 2 (n - 2) s ltac:(lia)) as Hr.
  destruct (randint 2 (n - 2) s) as [a s'] eqn:E. simpl in Hr.
  rewrite Hw by lia. apply IH; auto.
Qed.

(** Miller-Rabin has no false negatives, whatever bases are drawn. *)
Lemma miller_rabin_prime_true (n k : Z) (s : Rng) :
  Z.prime n -> fst (miller_rabin_test n k s) = Returned true.
Proof.
  intros Hp. pose proof (Z.prime_ge_2 _ Hp). unfold miller_rabin_test.
  replace (n <=? 1) with false by (symmetry; apply Z.leb_gt; lia).
  destruct (Z.leb_spec n 3) as [H3|H3]; [reflexivity|].
  destruct (two_adic_spec (S (Z.to_nat (n - 1))) 0 (n - 1))
    as (r & d & Ht & Hrd & Hodd & Hr & Hd); [lia | lia | lia |].
  rewrite Ht. rewrite Z.pow_0_r, Z.mul_1_l in Hrd.
  pose proof (mr_rounds_no_witness (Z.to_nat k) n r d s ltac:(lia)) as Hm.
  destruct (mr_rounds (Z.to_nat k) n r d s) as [b s'].
  simpl in *. rewrite Hm; [reflexivity|].
  intros a Ha. apply is_witness_prime; auto; lia.
Qed.

Lemma all_in_spec (f : Z -> bool) (lo : Z) (cnt : nat) :
  all_in f lo cnt = true -> forall a, lo <= a < lo + Z.of_nat cnt -> f a = true.
Proof.
  revert lo. induction cnt as [|cnt IH]; intros lo H a Ha; [lia|].
  cbn [all_in] in H. apply andb_true_iff in H as [H1 H2].
  destruct (Z.eq_dec a lo) as [->|Hne]; [exact H1|].
  apply (IH (lo + 1)); auto. lia.
Qed.

(** When every base of [[2, n - 2]] is a witness, one round suffices. *)
Lemma miller_rabin_all_witnesses (n r d k : Z) (s : Rng) :
  4 <= n -> 1 <= k ->
  two_adic (S (Z.to_nat (n - 1))) 0 (n - 1) = Returned (r, d) ->
  all_in (is_witness n r d) 2 (Z.to_nat (n - 3)) = true ->
  fst (miller_rabin_test n k s) = Returned false.
Proof.
  intros Hn Hk Ht Hall. unfold miller_rabin_test.
  replace (n <=? 1) with false by (symmetry; apply Z.leb_gt; lia).
  replace (n <=? 3) with false by (symmetry; apply Z.leb_gt; lia).
  rewrite Ht. destruct (Z.to_nat k) as [|k'] eqn:Ek; [lia|].
  cbn [mr_rounds].
  pose proof (randint_range 2 (n - 2) s ltac:(lia)) as Hr.
  destruct (randint 2 (n - 2) s) as [a s'] eqn:E. simpl in Hr.
  rewrite (all_in_spec _ 2 _ Hall a) by lia. reflexivity.
Qed.

(** ** The delegate: [sympy_isprime] decides [Z.prime] *)

Lemma no_divisor_spec (n : Z) (k : nat) :
  no_divisor n k = true <-> forall d, 2 <= d <= Z.of_nat k + 1 -> n mod d <> 0.
Proof.
  induction k as [|k IH]; cbn [no_divisor].
  - split; [intros _ d Hd; lia | reflexivity].
  - rewrite andb_true_iff, negb_true_iff, Z.eqb_neq, IH. split.
    + intros [H1 H2] d Hd. destruct (Z.eq_dec d (Z.of_nat k + 2)) as [->|Hne]; auto.
      apply H2. lia.
    + intros H. split; [apply H; lia|]. intros d Hd. apply H. lia.
Qed.

Lemma sympy_isprime_spec (n : Z) : sympy_isprime n = true <-> Z.prime n.
Proof.
  unfold sympy_isprime. rewrite andb_true_iff, Z.leb_le, no_divisor_spec. split.
  - intros [Hn Hno]. split; [lia|]. intros m Hm Hdiv.
    apply (Hno m); [lia|]. apply Z.mod_divide; auto; lia.
  - intros Hp. pose proof (Z.prime_ge_2 _ Hp). split; [lia|].
    intros d Hd Hmod. apply (proj2 Hp d); [lia|]. apply Z.mod_divide; auto; lia.
Qed.

(** ** The Baillie-PSW-style test *)

Lemma wheel_loop_spec (fuel : nat) (n k max : Z) :
  1 <= k -> (Z.to_nat (max + 1 - (6 * k - 1)) < fuel)%nat ->
  exists b, wheel_loop fuel n (6 * k - 1) max = Returned b /\
    (b = true <-> forall k', k <= k' -> 6 * k' - 1 <= max ->
                  n mod (6 * k' - 1) <> 0 /\ n mod (6 * k' + 1) <> 0).
Proof.
  revert k. induction fuel as [|fuel IH]; intros k Hk Hf; [lia|].
  cbn [wheel_loop]. replace (6 * k - 1 + 2) with (6 * k + 1) by ring.
  destruct (Z.leb_spec (6 * k - 1) max) as [Hle|Hgt].
  - destruct (Z.eqb_spec (n mod (6 * k - 1)) 0) as [E1|E1];
      [| destruct (Z.eqb_spec (n mod (6 * k + 1)) 0) as [E2|E2]]; cbn [orb].
    + exists false. split; [reflexivity|]. split; [discriminate|].
      intros H. exfalso. apply (proj1 (H k ltac:(lia) Hle)). exact E1.
    + exists false. split; [reflexivity|]. split; [discriminate|].
      intros H. exfalso. apply (proj2 (H k ltac:(lia) Hle)). exact E2.
    + replace (6 * k - 1 + 6) with (6 * (k + 1) - 1) by ring.
      destruct (IH (k + 1)) as (b & Hb & Hiff); [lia | lia |].
      exists b. split; [exact Hb|]. rewrite Hiff. split.
      * intros H k' Hk' Hm. destruct (Z.eq_dec k' k) as [->|Hne]; [auto|].
        apply H; lia.
      * intros H k' Hk' Hm. apply H; lia.
  - exists true. split; [reflexivity|]. split; [|reflexivity].
    intros _ k' Hk' Hm. lia.
Qed.

(** ** Bounds on the float square root *)

Lemma round_double_nonneg_le (x : Z) : 0 <= x -> round_double_nonneg x <= 2 * x.
Proof.
  intros Hx. unfold round_double_nonneg.
  destruct (Z.ltb_spec x (2 ^ 53)) as [Hs|Hs]; [lia|].
  assert (Hx0 : 0 < x) by lia.
  pose proof (Z.log2_spec x Hx0) as [Hl _].
  assert (Hl53 : 53 <= Z.log2 x).
  { apply Z.log2_le_pow2; lia. }
  set (sh := Z.log2 x - 52).
  assert (Hsh : 2 ^ sh <= x).
  { apply (Z.le_trans _ (2 ^ Z.log2 x)); [apply Z.pow_le_mono_r; unfold sh; lia | exact Hl]. }
  assert (Hp : 0 < 2 ^ sh) by (apply Z.pow_pos_nonneg; unfold sh; lia).
  pose proof (Z.mul_div_le x (2 ^ sh) Hp).
  destruct (_ || _); nia.
Qed.

Lemma float_of_int_pos (n : Z) : 0 < n -> float_of_int n = round_double_nonneg n.
Proof.
  intros Hn. unfold float_of_int. rewrite Z.sgn_pos, Z.abs_eq by lia. ring.
Qed.

Lemma rn_sqrt_div_le (x w : Z) : rn_sqrt_div x w <= Z.sqrt x / 2 ^ w + 1.
Proof. unfold rn_sqrt_div. destruct (_ || _); lia. Qed.

Lemma floor_rn_sqrt_le (x : Z) : floor_rn_sqrt x <= 2 * Z.sqrt x + 1.
Proof.
  unfold floor_rn_sqrt. pose proof (Z.sqrt_nonneg x) as Hs0.
  destruct (Z.leb_spec x 0) as [Hx|Hx]; [lia|].
  set (e := Z.log2 x / 2). set (u := e - 52). set (s := Z.sqrt x).
  pose proof (Z.sqrt_spec x ltac:(lia)) as [Hs1 Hs2]. fold s in Hs1, Hs2.
  destruct (Z.leb_spec u 0) as [Hu|Hu].
  - set (v := - u). assert (Hv : 0 <= v) by lia.
    set (t := 2 ^ v). assert (Ht : 0 < t) by (apply Z.pow_pos_nonneg; lia).
    assert (H4 : 4 ^ v = t * t).
    { unfold t. rewrite <- Z.pow_mul_l. reflexivity. }
    rewrite H4.
    pose proof (rn_sqrt_div_le (x * (t * t)) 0) as Hm.
    rewrite Z.pow_0_r, Z.div_1_r in Hm.
    set (s' := Z.sqrt (x * (t * t))) in Hm.
    pose proof (Z.sqrt_spec (x * (t * t)) ltac:(nia)) as [Hs'1 _]. fold s' in Hs'1.
    assert (Hlt : s' < (s + 1) * t).
    { destruct (Z.lt_ge_cases s' ((s + 1) * t)) as [H|H]; [exact H|].
      exfalso. assert (Hsq : (s + 1) * t * ((s + 1) * t) <= s' * s') by nia.
      unfold Z.succ in Hs2. nia. }
    apply (Z.le_trans _ (s + 1)); [|lia].
    apply Z.div_le_upper_bound; [exact Ht | nia].
  - assert (He : 2 ^ e <= s).
    { assert (Hee : 2 ^ e * 2 ^ e <= x).
      { rewrite <- Z.pow_add_r by (unfold e; pose proof (Z.log2_nonneg x);
          apply Z.div_pos; lia).
        apply (Z.le_trans _ (2 ^ Z.log2 x)).
        - apply Z.pow_le_mono_r; [lia|]. unfold e.
          pose proof (Z.mul_div_le (Z.log2 x) 2 ltac:(lia)). lia.
        - apply Z.log2_spec. lia. }
      unfold s. rewrite <- (Z.sqrt_square (2 ^ e)) by (apply Z.pow_nonneg; lia).
      apply Z.sqrt_le_mono. lia. }
    assert (Hue : 2 ^ u <= 2 ^ e) by (apply Z.pow_le_mono_r; unfold u; lia).
    assert (Hp : 0 < 2 ^ u) by (apply Z.pow_pos_nonneg; lia).
    pose proof (rn_sqrt_div_le x u) as Hm. fold s in Hm.
    pose proof (Z.mul_div_le s (2 ^ u) Hp).
    nia.
Qed.

(** The bound of the wheel in [is_prime_trial_division]. *)
Lemma int_math_sqrt_le (n : Z) :
  0 < n -> floor_rn_sqrt (float_of_int n) <= 2 * Z.sqrt (2 * n) + 1.
Proof.
  intros Hn. rewrite float_of_int_pos by exact Hn.
  pose proof (floor_rn_sqrt_le (round_double_nonneg n)).
  pose proof (Z.sqrt_le_mono _ _ (round_double_nonneg_le n ltac:(lia))). lia.
Qed.

(** In float range, trial division never rejects a prime: the wheel stops
    at [int(math.sqrt(p)) + 2 < p]. *)
Lemma trial_division_prime (p : Z) :
  Z.prime p -> p < float_overflow_bound -> is_prime_trial_division p = Returned true.
Proof.
  intros Hp Hb. pose proof (Z.prime_ge_2 _ Hp) as H2.
  assert (Hnd : forall q, 1 < q < p -> p mod q <> 0).
  { intros q Hq E. apply Z.mod_divide in E; [|lia]. exact (proj2 Hp q Hq E). }
  destruct (Z.eq_dec p 2) as [->|N2]; [reflexivity|].
  destruct (Z.eq_dec p 3) as [->|N3]; [reflexivity|].
  assert (M2 : p mod 2 <> 0) by (apply Hnd; lia).
  assert (M3 : p mod 3 <> 0) by (apply Hnd; lia).
  destruct (Z.lt_ge_cases p 17) as [Hs|Hs].
  { assert (Hc : p = 4 \/ p = 5 \/ p = 6 \/ p = 7 \/ p = 8 \/ p = 9 \/ p = 10 \/ p = 11 \/
                 p = 12 \/ p = 13 \/ p = 14 \/ p = 15 \/ p = 16) by lia.
    repeat (destruct Hc as [->|Hc]; [vm_compute in M2, M3 |- *; congruence|]).
    subst p. vm_compute in M2. congruence. }
  unfold is_prime_trial_division, int_math_sqrt, int_to_float_overflows.
  replace (p <? 2) with false by (symmetry; apply Z.ltb_ge; lia).
  replace ((p =? 2) || (p =? 3)) with false
    by (symmetry; apply orb_false_iff; split; apply Z.eqb_neq; auto).
  replace ((p mod 2 =? 0) || (p mod 3 =? 0)) with false
    by (symmetry; apply orb_false_iff; split; apply Z.eqb_neq; auto).
  replace (float_overflow_bound <=? Z.abs p) with false
    by (symmetry; apply Z.leb_gt; rewrite Z.abs_eq; lia).
  cbn [bind]. set (M := floor_rn_sqrt (float_of_int p)).
  assert (HM : M <= 2 * Z.sqrt (2 * p) + 1) by (apply int_math_sqrt_le; lia).
  assert (HMp : M + 2 < p).
  { pose proof (Z.sqrt_spec (2 * p) ltac:(lia)) as [Hq1 Hq2].
    set (q := Z.sqrt (2 * p)) in *.
    destruct (Z.lt_ge_cases M (p - 2)) as [Hc|Hc]; [lia|]. exfalso.
    assert (Hq7 : 7 <= q) by lia. nia. }
  destruct (wheel_loop_spec (S (Z.to_nat M)) p 1 M) as (b & Hw & Hiff); [lia | lia |].
  replace (6 * 1 - 1) with 5 in Hw by reflexivity. rewrite Hw. f_equal. apply Hiff.
  intros k Hk Hm. split; apply Hnd; lia.
Qed.

(** ** Primality certificates *)

Lemma prime_divisor_exists (m : Z) : 1 < m -> exists r, Z.prime r /\ (r | m).
Proof.
  assert (H : forall k : nat, forall m, (Z.to_nat m <= k)%nat -> 1 < m ->
            exists r, Z.prime r /\ (r | m)).
  { induction k as [|k IH]; intros m' Hk Hm; [lia|].
    destruct (prime_dec m') as [Hp|Hnp].
    - exists m'. split; [apply prime_alt; exact Hp | apply Z.divide_refl].
    - destruct (not_prime_divide m' Hm Hnp) as (d & Hd & Hdm).
      destruct (IH d) as (r & Hr & Hrd); [lia | lia |].
      exists r. split; [exact Hr | eapply Z.divide_trans; eauto]. }
  intros Hm. apply (H (Z.to_nat m)); [lia | exact Hm].
Qed.

Lemma divide_pow_sub_one (r x e : Z) :
  0 <= e -> (r | x - 1) -> (r | x ^ e - 1).
Proof.
  intros He Hx. pattern e. apply natlike_ind; [| |exact He].
  - rewrite Z.pow_0_r. exists 0. ring.
  - intros e' He' IH. rewrite Z.pow_succ_r by exact He'.
    replace (x * x ^ e' - 1) with (x * (x ^ e' - 1) + (x - 1)) by ring.
    apply Z.divide_add_r; [apply Z.divide_mul_r |]; assumption.
Qed.

(** Pocklington's criterion with one prime [q > sqrt p] dividing [p - 1]:
    every prime factor [r] of [p] has [q | r - 1], so [p] has no factor at
    most [sqrt p]. *)
Lemma pocklington (p q a : Z) :
  1 < p -> Z.prime q -> (q | p - 1) -> p < q * q ->
  Zpow_mod a (p - 1) p = 1 -> Z.gcd (Zpow_mod a ((p - 1) / q) p - 1) p = 1 ->
  Z.prime p.
Proof.
  intros Hp Hq [m Hm] Hsq Hpow Hgcd.
  rewrite Zpow_mod_correct in Hpow, Hgcd by lia.
  pose proof (Z.prime_ge_2 _ Hq) as Hq2.
  assert (Hm0 : 0 < m) by nia.
  replace ((p - 1) / q) with m in Hgcd by (rewrite Hm; rewrite Z.div_mul; lia).
  assert (Hbig : forall r, Z.prime r -> (r | p) -> q < r).
  { intros r Hr Hrp. pose proof (Z.prime_ge_2 _ Hr) as Hr2.
    assert (Hp1 : (r | a ^ (p - 1) - 1)).
    { apply (Z.divide_trans _ p); [exact Hrp|].
      exists (a ^ (p - 1) / p). pose proof (Z.div_mod (a ^ (p - 1)) p ltac:(lia)). lia. }
    assert (Ha : a mod r <> 0).
    { intros E. apply Z.mod_divide in E; [|lia].
      assert (Hd : (r | a ^ (p - 1))).
      { replace (p - 1) with (Z.succ (p - 2)) by lia. rewrite Z.pow_succ_r by lia.
        apply Z.divide_mul_l. exact E. }
      assert (H1 : (r | 1)).
      { replace 1 with (a ^ (p - 1) - (a ^ (p - 1) - 1)) by ring.
        apply Z.divide_sub_r; assumption. }
      apply Z.divide_pos_le in H1; lia. }
    assert (Hf : (r | a ^ (r - 1) - 1)).
    { pose proof (ZmodInv.Z.fermat_nz r a Hr Ha) as F.
      exists (a ^ (r - 1) / r). pose proof (Z.div_mod (a ^ (r - 1)) r ltac:(lia)). lia. }
    destruct (Z.lt_ge_cases q r) as [Hlt|Hge]; [exact Hlt|]. exfalso.
    assert (Hnd : ~ (q | r - 1)).
    { intros Hd. apply Z.divide_pos_le in Hd; lia. }
    pose proof (Z.coprime_prime_l q (r - 1) Hq Hnd) as Hcop.
    destruct (Z.Bezout_coprime _ _ Hcop) as (u & v & Huv).
    set (u' := u mod (r - 1) + (r - 1)).
    pose proof (Z.mod_pos_bound u (r - 1) ltac:(lia)) as Hub.
    pose proof (Z.div_mod u (r - 1) ltac:(lia)) as Hud.
    set (w := q - v - u / (r - 1) * q).
    assert (Hw : u' * q = 1 + (r - 1) * w) by (unfold u', w; nia).
    assert (Hw0 : 0 <= w) by nia.
    assert (Hu0 : 0 <= u') by (unfold u'; lia).
    set (A := a ^ m).
    assert (HAq : (r | A ^ q - 1)).
    { unfold A. rewrite <- Z.pow_mul_r by lia.
      replace (m * q) with (p - 1) by lia. exact Hp1. }
    assert (HB : (r | (A ^ (r - 1)) ^ w - 1)).
    { apply divide_pow_sub_one; [exact Hw0|].
      unfold A. rewrite <- Z.pow_mul_r by lia. rewrite Z.mul_comm, Z.pow_mul_r by lia.
      apply divide_pow_sub_one; [lia | exact Hf]. }
    assert (HC : (r | A * (A ^ (r - 1)) ^ w - 1)).
    { replace (A * (A ^ (r - 1)) ^ w) with ((A ^ q) ^ u').
      - apply divide_pow_sub_one; [lia | exact HAq].
      - rewrite <- !Z.pow_mul_r by lia.
        replace (q * u') with (1 + (r - 1) * w) by lia.
        rewrite Z.pow_add_r, Z.pow_1_r by nia. reflexivity. }
    assert (HA1 : (r | A - 1)).
    { replace (A - 1) with ((A * (A ^ (r - 1)) ^ w - 1) - A * ((A ^ (r - 1)) ^ w - 1)) by ring.
      apply Z.divide_sub_r; [exact HC | apply Z.divide_mul_r; exact HB]. }
    assert (Hg : (r | Z.gcd (A mod p - 1) p)).
    { apply Z.gcd_greatest; [|exact Hrp].
      replace (A mod p - 1) with ((A - 1) - p * (A / p))
        by (pose proof (Z.div_mod A p ltac:(lia)); lia).
      apply Z.divide_sub_r; [exact HA1 | apply Z.divide_mul_l; exact Hrp]. }
    unfold A in Hg. rewrite Hgcd in Hg. apply Z.divide_pos_le in Hg; lia. }
  split; [exact Hp|]. intros n Hn [c Hc].
  assert (Hc1 : 1 < c < p) by nia.
  destruct (Z.le_ge_cases n c) as [Hnc|Hnc].
  - destruct (prime_divisor_exists n ltac:(lia)) as (r & Hr & Hrn).
    pose proof (Hbig r Hr ltac:(eapply Z.divide_trans; [exact Hrn | exists c; lia])).
    apply Z.divide_pos_le in Hrn; [|lia]. nia.
  - destruct (prime_divisor_exists c ltac:(lia)) as (r & Hr & Hrc).
    pose proof (Hbig r Hr ltac:(eapply Z.divide_trans; [exact Hrc | exists n; lia])).
    apply Z.divide_pos_le in Hrc; [|lia]. nia.
Qed.

Ltac pocklington_step q a :=
  apply (pocklington _ q a);
  [ lia | | apply Z.mod_divide; [lia | vm_compute; reflexivity] | lia
  | vm_compute; reflexivity | vm_compute; reflexivity ].

Lemma prime_1483 : Z.prime 1483.
Proof. apply sympy_isprime_spec. vm_compute. reflexivity. Qed.

Lemma prime_1103 : Z.prime 1103.
Proof. apply sympy_isprime_spec. vm_compute. reflexivity. Qed.

Lemma prime_gap_low : Z.prime (2 ^ 62 + 169).
Proof.
  pocklington_step 105897729869 2. pocklington_step 3782061781 2.
  pocklington_step 9004909 2. pocklington_step 68219 2.
  pocklington_step 1483 2. exact prime_1483.
Qed.

Lemma prime_gap_high : Z.prime (2 ^ 62 + 187).
Proof.
  pocklington_step 265092292453 2. pocklington_step 1699309567 2.
  pocklington_step 297811 2. pocklington_step 1103 2. exact prime_1103.
Qed.

(** ** The integer [n_float_gap] *)

Lemma n_float_gap_no_small_divisor (d : Z) :
  2 <= d < 2 ^ 62 + 169 -> n_float_gap mod d <> 0.
Proof.
  intros Hd E. apply Z.mod_divide in E; [|lia]. unfold n_float_gap in E.
  assert (Hg : Z.gcd d (2 ^ 62 + 169) = 1).
  { rewrite Z.gcd_comm. apply Z.coprime_prime_small; [exact prime_gap_low | lia]. }
  pose proof (Z.gauss _ _ _ E Hg) as Hd'.
  exact (proj2 prime_gap_high d ltac:(lia) Hd').
Qed.

Lemma n_float_gap_not_prime : ~ Z.prime n_float_gap.
Proof.
  intros Hp. apply (proj2 Hp (2 ^ 62 + 169)).
  - unfold n_float_gap. lia.
  - exists (2 ^ 62 + 187). unfold n_float_gap. ring.
Qed.

Lemma n_float_gap_float : float_of_int n_float_gap = 2 ^ 124.
Proof. vm_compute. reflexivity. Qed.

Example pollards_rho_8051 :
  pollards_rho_factorize 8051 = Returned [97; 83].
Proof. vm_compute. reflexivity. Qed.

(** * Lemmas for the further properties *)

(** ** Trial division and the Baillie-PSW-style test *)

Lemma prime_two : Z.prime 2.
Proof. apply sympy_isprime_spec. reflexivity. Qed.

Lemma prime_three : Z.prime 3.
Proof. apply sympy_isprime_spec. reflexivity. Qed.

Lemma not_prime_of_divisor (n m : Z) : 1 < m < n -> (m | n) -> ~ Z.prime n.
Proof. intros Hm Hd Hp. exact (proj2 Hp m Hm Hd). Qed.

Lemma prime_five : Z.prime 5.
Proof. apply sympy_isprime_spec. reflexivity. Qed.

Lemma is_perfect_square_nonneg (m : Z) :
  0 <= m -> is_perfect_square m = Returned (Z.sqrt m * Z.sqrt m =? m).
Proof.
  intros Hm. unfold is_perfect_square.
  replace (m <? 0) with false by (symmetry; apply Z.ltb_ge; lia). reflexivity.
Qed.

Lemma square_iff (m : Z) :
  0 <= m -> (Z.sqrt m * Z.sqrt m = m <-> exists k, k * k = m).
Proof.
  intros Hm. split.
  - intros E. exists (Z.sqrt m). exact E.
  - intros [k Hk]. subst m.
    replace (k * k) with (Z.abs k * Z.abs k) by (destruct (Z.abs_spec k) as [[_ E]|[_ E]]; rewrite E; ring).
    rewrite Z.sqrt_square by apply Z.abs_nonneg. reflexivity.
Qed.

(** Past the small cases, [is_prime_baillie_psw] is the square gate
    followed by trial division. *)
Lemma baillie_psw_core (n : Z) :
  2 <= n -> n <> 2 -> n <> 3 -> n <> 5 ->
  n mod 2 <> 0 -> n mod 3 <> 0 -> n mod 5 <> 0 ->
  is_prime_baillie_psw n =
    if (Z.sqrt (5 * n * n + 4) * Z.sqrt (5 * n * n + 4) =? 5 * n * n + 4) ||
       (Z.sqrt (5 * n * n - 4) * Z.sqrt (5 * n * n - 4) =? 5 * n * n - 4)
    then Returned false else is_prime_trial_division n.
Proof.
  intros H2 N2 N3 N5 M2 M3 M5. unfold is_prime_baillie_psw.
  replace (n <? 2) with false by (symmetry; apply Z.ltb_ge; lia).
  replace (n =? 2) with false by (symmetry; apply Z.eqb_neq; lia).
  replace (n =? 3) with false by (symmetry; apply Z.eqb_neq; lia).
  replace (n =? 5) with false by (symmetry; apply Z.eqb_neq; lia).
  replace (n mod 2 =? 0) with false by (symmetry; apply Z.eqb_neq; lia).
  replace (n mod 3 =? 0) with false by (symmetry; apply Z.eqb_neq; lia).
  replace (n mod 5 =? 0) with false by (symmetry; apply Z.eqb_neq; lia).
  cbn [orb].
  rewrite (is_perfect_square_nonneg (5 * n * n + 4)) by nia. cbn [bind].
  destruct (Z.sqrt (5 * n * n + 4) * Z.sqrt (5 * n * n + 4) =? 5 * n * n + 4);
    [reflexivity|].
  rewrite (is_perfect_square_nonneg (5 * n * n - 4)) by nia. cbn [bind orb].
  reflexivity.
Qed.

Lemma baillie_psw_prime (p : Z) :
  Z.prime p -> 5 < p -> p < float_overflow_bound ->
  exists b, is_prime_baillie_psw p = Returned b /\
    (b = false <-> exists m, m * m = 5 * p * p + 4 \/ m * m = 5 * p * p - 4).
Proof.
  intros Hp H5 Hb.
  assert (Hnd : forall q, 1 < q < p -> p mod q <> 0).
  { intros q Hq E. apply Z.mod_divide in E; [|lia].
    exact (not_prime_of_divisor p q Hq E Hp). }
  rewrite baillie_psw_core by (try apply Hnd; lia).
  destruct (Z.eqb_spec (Z.sqrt (5 * p * p + 4) * Z.sqrt (5 * p * p + 4)) (5 * p * p + 4)) as [E1|E1];
  [|destruct (Z.eqb_spec (Z.sqrt (5 * p * p - 4) * Z.sqrt (5 * p * p - 4)) (5 * p * p - 4)) as [E2|E2]];
  cbn [orb].
  - exists false. split; [reflexivity|]. split; [|reflexivity].
    intros _. exists (Z.sqrt (5 * p * p + 4)). left. exact E1.
  - exists false. split; [reflexivity|]. split; [|reflexivity].
    intros _. exists (Z.sqrt (5 * p * p - 4)). right. exact E2.
  - exists true. split; [apply trial_division_prime; assumption|].
    split; [discriminate|]. intros [m [Em|Em]].
    + exfalso. apply E1. apply square_iff; [nia | exists m; exact Em].
    + exfalso. apply E2. apply square_iff; [nia | exists m; exact Em].
Qed.

Lemma is_perfect_square_total (n : Z) :
  (n < 0 /\ is_perfect_square n = Raised ValueError) \/
  (0 <= n /\ exists b, is_perfect_square n = Returned b /\ (b = true <-> exists k, k * k = n)).
Proof.
  destruct (Z.ltb_spec n 0) as [Hn|Hn].
  - left. split; [exact Hn|]. unfold is_perfect_square.
    replace (n <? 0) with true by (symmetry; apply Z.ltb_lt; lia). reflexivity.
  - right. split; [exact Hn|]. rewrite is_perfect_square_nonneg by exact Hn.
    eexists. split; [reflexivity|]. rewrite Z.eqb_eq. apply square_iff. exact Hn.
Qed.

(** ** Pollard, gcd, decomposition, Miller-Rabin draws *)

Lemma pollard_rho_divisor (n : Z) :
  2 <= n -> exists d, pollard_rho n = Returned d /\ 2 <= d <= n /\ (d | n).
Proof.
  intros Hn. destruct (pollard_rho_spec n Hn) as (d & Hd & H2 & Hdv).
  exists d. split; [exact Hd|]. split; [|exact Hdv].
  split; [exact H2|]. apply Z.divide_pos_le; [lia | exact Hdv].
Qed.

Lemma py_gcd_loop (a b : Z) :
  0 <= a -> 0 <= b -> py_gcd (S (Z.to_nat b)) a b = Returned (Z.gcd a b).
Proof. intros Ha Hb. apply py_gcd_correct; lia. Qed.

Lemma two_adic_decomposition (n : Z) :
  2 <= n ->
  exists r d, two_adic (S (Z.to_nat (n - 1))) 0 (n - 1) = Returned (r, d) /\
    n - 1 = 2 ^ r * d /\ d mod 2 = 1 /\ 0 <= r.
Proof.
  intros Hn. destruct (two_adic_spec (S (Z.to_nat (n - 1))) 0 (n - 1))
    as (r & d & Ht & Hp & Ho & Hr & Hd); [lia | lia | lia |].
  exists r, d. split; [exact Ht|]. split; [rewrite Hp; ring|]. split; [|lia].
  pose proof (Z.mod_pos_bound d 2 ltac:(lia)). lia.
Qed.

Lemma miller_rabin_no_rounds (n k : Z) (s : Rng) :
  k <= 0 -> 1 < n -> miller_rabin_test n k s = (Returned true, s).
Proof.
  intros Hk Hn. unfold miller_rabin_test.
  replace (n <=? 1) with false by (symmetry; apply Z.leb_gt; lia).
  destruct (n <=? 3); [reflexivity|].
  destruct (two_adic_decomposition n ltac:(lia)) as (r & d & Ht & _).
  rewrite Ht. replace (Z.to_nat k) with O by lia. reflexivity.
Qed.

Lemma mr_rounds_draws (count : nat) (n r d : Z) (s : Rng) :
  exists m, (m <= count)%nat /\ forall i, snd (mr_rounds count n r d s) i = s (m + i)%nat.
Proof.
  revert s. induction count as [|count IH]; intros s.
  - exists O. split; [lia|]. intros i. reflexivity.
  - cbn [mr_rounds randint]. destruct (is_witness n r d _).
    + exists 1%nat. split; [lia|]. intros i. reflexivity.
    + destruct (IH (fun i => s (S i))) as (m & Hm & Hs).
      exists (S m). split; [lia|]. intros i. rewrite Hs. reflexivity.
Qed.

Lemma miller_rabin_draws (n k : Z) (s : Rng) :
  exists m, (m <= Z.to_nat k)%nat /\
    forall i, snd (miller_rabin_test n k s) i = s (m + i)%nat.
Proof.
  unfold miller_rabin_test.
  destruct (n <=? 1); [exists O; split; [lia | reflexivity]|].
  destruct (n <=? 3); [exists O; split; [lia | reflexivity]|].
  destruct (two_adic _ 0 (n - 1)) as [[r d]| e |];
    [|exists O; split; [lia | reflexivity] ..].
  destruct (mr_rounds_draws (Z.to_nat k) n r d s) as (m & Hm & Hs).
  destruct (mr_rounds (Z.to_nat k) n r d s) as [b s'] eqn:E.
  exists m. split; [exact Hm|]. intros i. simpl. rewrite <- Hs. reflexivity.
Qed.

Lemma mr_rounds_all_draws (count : nat) (n r d : Z) (s : Rng) :
  4 <= n -> (forall a, 2 <= a <= n - 2 -> is_witness n r d a = false) ->
  forall i, snd (mr_rounds count n r d s) i = s (count + i)%nat.
Proof.
  revert s. induction count as [|count IH]; intros s Hn Hw i; [reflexivity|].
  cbn [mr_rounds].
  pose proof (randint_range 2 (n - 2) s ltac:(lia)) as Hr.
  destruct (randint 2 (n - 2) s) as [a s'] eqn:E. simpl in Hr.
  rewrite Hw by lia. rewrite IH by auto.
  injection E as _ <-. reflexivity.
Qed.

Lemma miller_rabin_prime_draws (n k : Z) (s : Rng) :
  Z.prime n -> 3 < n ->
  forall i, snd (miller_rabin_test n k s) i = s (Z.to_nat k + i)%nat.
Proof.
  intros Hp H3 i. unfold miller_rabin_test.
  replace (n <=? 1) with false by (symmetry; apply Z.leb_gt; lia).
  replace (n <=? 3) with false by (symmetry; apply Z.leb_gt; lia).
  destruct (two_adic_spec (S (Z.to_nat (n - 1))) 0 (n - 1))
    as (r & d & Ht & Hrd & Hodd & Hr & Hd); [lia | lia | lia |].
  rewrite Ht. rewrite Z.pow_0_r, Z.mul_1_l in Hrd.
  pose proof (mr_rounds_all_draws (Z.to_nat k) n r d s ltac:(lia)) as Hm.
  destruct (mr_rounds (Z.to_nat k) n r d s) as [b s'].
  simpl in *. rewrite Hm; [reflexivity|].
  intros a Ha. apply is_witness_prime; auto; lia.
Qed.

(** ** Drivers *)

Lemma pollards_rho_total (n : Z) : exists l, pollards_rho_factorize n = Returned l.
Proof.
  destruct (Z.le_gt_cases n 1) as [Hn|Hn].
  - exists []. apply pollards_rho_factorize_small. exact Hn.
  - destruct (pollards_rho_factorize_spec n ltac:(lia)) as (l & Hl & _). eauto.
Qed.

Lemma factor_nums_pollard `{Libm} (nums : list Z) (s : Rng) :
  exists ls, Forall2 (fun n l => pollards_rho_factorize n = Returned l) nums ls /\
    factor_nums 2 nums s =
      (Msg "Pollards Rho Algorithm:" :: map (fun '(n, l) => FactorsOf n l) (combine nums ls),
       Returned tt, s).
Proof.
  assert (Hm : exists ls, Forall2 (fun n l => pollards_rho_factorize n = Returned l) nums ls /\
            map_call (Some (pure_strategy pollards_rho_factorize)) nums s =
              (Returned (combine nums ls), s)).
  { induction nums as [|n rest IH].
    - exists []. split; [constructor | reflexivity].
    - destruct IH as (ls & Hf & Hmc). destruct (pollards_rho_total n) as [l Hl].
      exists (l :: ls). split; [constructor; auto|].
      cbn [map_call call]. unfold pure_strategy at 1. rewrite Hl, Hmc. reflexivity. }
  destruct Hm as (ls & Hf & Hmc). exists ls. split; [exact Hf|].
  unfold factor_nums. cbn [get_factor_method Z.eqb Pos.eqb]. rewrite Hmc. reflexivity.
Qed.

Lemma brute_force_total `{Libm} (n : Z) :
  (exists l, factorize_brute_force n = Returned l) \/
  (exists e, factorize_brute_force n = Raised e).
Proof.
  destruct (Z.ltb_spec n 0) as [Hn|Hn].
  - right. unfold factorize_brute_force, int_pow_half.
    destruct (int_to_float_overflows n); [eexists; reflexivity|].
    replace (n <? 0) with true by (symmetry; apply Z.ltb_lt; lia).
    eexists. reflexivity.
  - destruct (Z.eq_dec n 0) as [->|N0].
    { left. unfold factorize_brute_force, int_pow_half.
      cbn [int_to_float_overflows float_of_int Z.sgn Z.mul Z.ltb Z.compare].
      rewrite pow_half_zero. eexists. reflexivity. }
    destruct (Z.ltb_spec n float_overflow_bound) as [Hb|Hb].
    + left. destruct (brute_force_factorization n ltac:(lia) Hb) as (l & Hl & _).
      eauto.
    + right. exists OverflowError. apply brute_force_overflow. exact Hb.
Qed.

Lemma brute_force_negative `{Libm} (n : Z) : n < 0 -> exists e, factorize_brute_force n = Raised e.
Proof.
  intros Hn. unfold factorize_brute_force, int_pow_half.
  destruct (int_to_float_overflows n); [eexists; reflexivity|].
  replace (n <? 0) with true by (symmetry; apply Z.ltb_lt; lia).
  eexists. reflexivity.
Qed.

Lemma map_call_pure_raise {A} (f : Z -> outcome A) (nums : list Z) (s : Rng) :
  (forall n, (exists a, f n = Returned a) \/ (exists e, f n = Raised e)) ->
  (exists n e, In n nums /\ f n = Raised e) ->
  exists e, map_call (Some (pure_strategy f)) nums s = (Raised e, s).
Proof.
  intros Htot. induction nums as [|n rest IH]; intros (m & e & Hin & He); [destruct Hin|].
  cbn [map_call call]. unfold pure_strategy at 1.
  destruct (Htot n) as [[a Ha]|[e' He']].
  - rewrite Ha. destruct Hin as [->|Hin]; [congruence|].
    destruct IH as [e'' He'']; [eauto|]. rewrite He''. eauto.
  - rewrite He'. eauto.
Qed.

Lemma factor_nums_brute_force_abort `{Libm} (nums : list Z) (s : Rng) :
  (exists n, In n nums /\ n < 0) ->
  exists e, factor_nums 1 nums s = ([Msg "Brute Force Factorization:"], Raised e, s).
Proof.
  intros (n & Hin & Hn).
  destruct (map_call_pure_raise factorize_brute_force nums s brute_force_total)
    as [e He].
  { destruct (brute_force_negative n Hn) as [e He]. eauto. }
  exists e. unfold factor_nums. cbn [get_factor_method Z.eqb Pos.eqb]. rewrite He. reflexivity.
Qed.

Lemma check_numslist_miller_rabin_primes (ps : list Z) (s : Rng) :
  Forall Z.prime ps ->
  exists s', check_if_numslist_prime 1 ps s =
    (Msg "Miller-Rabin Primality Test:" :: map (fun p => IsPrime p true) ps, Returned tt, s').
Proof.
  intros Hps.
  assert (Hm : exists s', map_call (Some (fun n => miller_rabin_test n 5)) ps s =
                          (Returned (map (fun p => (p, true)) ps), s')).
  { revert s. induction Hps as [|p ps Hp Hps IH]; intros s; [eexists; reflexivity|].
    cbn [map_call call].
    pose proof (miller_rabin_prime_true p 5 s Hp) as Hmr.
    destruct (miller_rabin_test p 5 s) as [o s1]. simpl in Hmr. subst o.
    destruct (IH s1) as [s' Hs']. rewrite Hs'. eexists. reflexivity. }
  destruct Hm as [s' Hs']. exists s'.
  unfold check_if_numslist_prime. cbn [get_prime_check_method Z.eqb Pos.eqb].
  rewrite Hs'. cbn [app]. rewrite map_map. reflexivity.
Qed.

Lemma check_numslist_singleton (method n : Z) (s : Rng) :
  check_if_numslist_prime method [n] s = check_if_num_prime method n s.
Proof.
  unfold check_if_numslist_prime, check_if_num_prime.
  destruct (get_prime_check_method method) as [f out]. cbn [map_call].
  destruct (call f n s) as [[b| e |] s']; reflexivity.
Qed.

(** ** [random.sample] *)

Lemma set_nth_length (j : nat) (v : Z) (l : list Z) : List.length (set_nth j v l) = List.length l.
Proof.
  revert j. induction l as [|a t IH]; intros j; destruct j; cbn [set_nth List.length]; auto.
Qed.

Lemma firstn_S_snoc (k : nat) (t : list Z) :
  (k < List.length t)%nat -> firstn (S k) t = firstn k t ++ [nth k t 0].
Proof.
  revert t. induction k as [|k IH]; intros t Ht; destruct t as [|a t]; cbn [List.length] in Ht; try lia.
  - reflexivity.
  - cbn [firstn nth app]. rewrite <- IH by lia. reflexivity.
Qed.

(** One step of the list branch: the drawn item and the new active prefix
    are a permutation of the old active prefix. *)
Lemma pool_step_perm (j k : nat) (pool : list Z) :
  (j <= k)%nat -> (S k <= List.length pool)%nat ->
  Permutation (firstn (S k) pool)
              (nth j pool 0 :: firstn k (set_nth j (nth k pool 0) pool)).
Proof.
  revert k pool. induction j as [|j IH]; intros k pool Hj Hl;
    destruct pool as [|a t]; cbn [List.length] in Hl; try lia.
  - destruct k as [|k]; [reflexivity|].
    change (Permutation (a :: firstn (S k) t) (a :: nth k t 0 :: firstn k t)).
    constructor. rewrite firstn_S_snoc by lia. symmetry. apply Permutation_cons_append.
  - destruct k as [|k]; [lia|].
    change (Permutation (a :: firstn (S k) t)
              (nth j t 0 :: a :: firstn k (set_nth j (nth k t 0) t))).
    eapply perm_trans; [constructor; apply (IH k t); lia|].
    constructor.
Qed.

Lemma pool_loop_spec (count : nat) (n i : Z) (pool result : list Z) (s : Rng) (m : nat) :
  n - i = Z.of_nat m -> (count <= m)%nat -> (m <= List.length pool)%nat ->
  NoDup (result ++ firstn m pool) ->
  List.length (fst (pool_loop count n i pool result s)) = (List.length result + count)%nat /\
  NoDup (fst (pool_loop count n i pool result s)) /\
  incl (fst (pool_loop count n i pool result s)) (result ++ firstn m pool).
Proof.
  revert i pool result s m. induction count as [|c IH]; intros i pool result s m Hm Hc Hl Hnd.
  - cbn [pool_loop fst]. split; [lia|]. split.
    + eapply NoDup_app_remove_r. exact Hnd.
    + apply incl_appl. apply incl_refl.
  - destruct m as [|k]; [lia|]. cbn [pool_loop randbelow].
    set (j := s O mod (n - i)).
    assert (Hj : 0 <= j < n - i) by (apply Z.mod_pos_bound; lia).
    replace (Z.to_nat (n - i - 1)) with k by lia.
    assert (Hperm : Permutation (result ++ firstn (S k) pool)
              ((result ++ [nth (Z.to_nat j) pool 0]) ++
                 firstn k (set_nth (Z.to_nat j) (nth k pool 0) pool))).
    { rewrite <- app_assoc. apply Permutation_app_head. apply pool_step_perm; lia. }
    destruct (IH (i + 1) (set_nth (Z.to_nat j) (nth k pool 0) pool)
                 (result ++ [nth (Z.to_nat j) pool 0]) (fun i0 => s (S i0)) k)
      as (H1 & H2 & H3).
    + lia.
    + lia.
    + rewrite set_nth_length. lia.
    + eapply Permutation_NoDup; [exact Hperm | exact Hnd].
    + split; [rewrite H1, length_app; cbn [List.length]; lia|]. split; [exact H2|].
      intros x Hx. apply (Permutation_in x (Permutation_sym Hperm)). apply H3. exact Hx.
Qed.

Lemma redraw_spec (fuel : nat) (n : Z) (sel : list Z) (j : Z) (s : Rng) (j' : Z) (s' : Rng) :
  redraw fuel n sel j s = (Returned j', s') -> 0 < n -> 0 <= j < n ->
  0 <= j' < n /\ ~ In j' sel.
Proof.
  revert j s. induction fuel as [|fuel IH]; intros j s H Hn Hj; [discriminate|].
  cbn [redraw] in H. destruct (existsb (Z.eqb j) sel) eqn:E.
  - cbn [randbelow] in H. apply (IH _ _ H Hn). apply Z.mod_pos_bound. lia.
  - injection H as <- _. split; [exact Hj|]. intros Hin.
    assert (existsb (Z.eqb j) sel = true) by (apply existsb_exists; exists j; split; [exact Hin | apply Z.eqb_refl]).
    congruence.
Qed.

Lemma redraw_no_raise (fuel : nat) (n : Z) (sel : list Z) (j : Z) (s : Rng) (e : exn) :
  fst (redraw fuel n sel j s) <> Raised e.
Proof.
  revert j s. induction fuel as [|fuel IH]; intros j s; cbn [redraw]; [discriminate|].
  destruct (existsb (Z.eqb j) sel); [apply IH | discriminate].
Qed.

Lemma NoDup_map_add (lo : Z) (l : list Z) : NoDup l -> NoDup (map (Z.add lo) l).
Proof.
  induction 1 as [|x l Hx Hl IH]; cbn [map]; constructor; auto.
  intros Hin. apply in_map_iff in Hin as (y & Hy & Hin).
  assert (y = x) by lia. subst. contradiction.
Qed.

Lemma set_loop_spec (fuel count : nat) (lo n : Z) (sel result : list Z) (s : Rng) (l : list Z) (s' : Rng) :
  set_loop fuel count lo n sel result s = (Returned l, s') -> 0 < n ->
  result = map (Z.add lo) sel -> NoDup sel -> Forall (fun j => 0 <= j < n) sel ->
  exists sel', l = map (Z.add lo) sel' /\ NoDup sel' /\ Forall (fun j => 0 <= j < n) sel' /\
    List.length sel' = (List.length sel + count)%nat.
Proof.
  revert sel result s. induction count as [|c IH]; intros sel result s H Hn Hr Hnd Hf.
  - injection H as <- _. exists sel. repeat split; auto; lia.
  - cbn [set_loop randbelow] in H.
    destruct (redraw fuel n sel (s O mod n) (fun i => s (S i))) as [[j| e |] s2] eqn:E;
      try discriminate.
    destruct (redraw_spec _ _ _ _ _ _ _ E Hn) as [Hj Hnin].
    { apply Z.mod_pos_bound. exact Hn. }
    destruct (IH (sel ++ [j]) (result ++ [lo + j]) s2 H Hn) as (sel' & H1 & H2 & H3 & H4).
    + rewrite map_app, Hr. reflexivity.
    + apply NoDup_app; auto; [repeat constructor; auto|].
      intros x Hx [<-|[]]. contradiction.
    + apply Forall_app. split; auto.
    + exists sel'. split; [exact H1|]. split; [exact H2|]. split; [exact H3|].
      rewrite H4, length_app. cbn [List.length]. lia.
Qed.

Lemma set_loop_no_raise (fuel count : nat) (lo n : Z) (sel result : list Z) (s : Rng) (e : exn) :
  fst (set_loop fuel count lo n sel result s) <> Raised e.
Proof.
  revert sel result s. induction count as [|c IH]; intros sel result s; cbn [set_loop randbelow];
    [discriminate|].
  pose proof (redraw_no_raise fuel n sel (s O mod n) (fun i => s (S i)) e) as Hr.
  destruct (redraw _ _ _ _ _) as [[j| e' |] s2]; [apply IH | | discriminate].
  cbn [fst] in *. intros E. injection E as ->. apply Hr. reflexivity.
Qed.

Lemma range_pool_spec (lo : Z) (a N : nat) :
  NoDup (map (fun j => lo + Z.of_nat j) (seq a N)) /\
  forall x, In x (map (fun j => lo + Z.of_nat j) (seq a N)) ->
    lo + Z.of_nat a <= x < lo + Z.of_nat a + Z.of_nat N.
Proof.
  revert a. induction N as [|N IH]; intros a; cbn [seq map].
  - split; [constructor | intros x []].
  - destruct (IH (S a)) as [Hnd Hin]. split.
    + constructor; [|exact Hnd]. intros H. apply Hin in H. lia.
    + intros x [<-|Hx]; [lia|]. apply Hin in Hx. lia.
Qed.

Lemma sample_range_result (fuel : nat) (lo hi k : Z) (s : Rng) (l : list Z) :
  fst (sample_range fuel lo hi k s) = Returned l ->
  List.length l = Z.to_nat k /\ NoDup l /\ Forall (fun x => lo <= x <= hi) l.
Proof.
  unfold sample_range. set (n := Z.max 0 (hi + 1 - lo)).
  assert (Hn0 : 0 <= n) by lia.
  destruct (py_ssize_max <? n); [discriminate|].
  destruct ((0 <=? k) && (k <=? n)) eqn:Ek; cbn [negb]; [|discriminate].
  apply andb_true_iff in Ek as [Ek1 Ek2]. apply Z.leb_le in Ek1, Ek2.
  destruct (n <=? sample_setsize k) eqn:Es.
  - set (pool := map (fun j => lo + Z.of_nat j) (seq 0 (Z.to_nat n))).
    destruct (range_pool_spec lo 0 (Z.to_nat n)) as [Hnd Hin]. fold pool in Hnd, Hin.
    assert (Hlen : List.length pool = Z.to_nat n) by (unfold pool; rewrite length_map, length_seq; reflexivity).
    destruct (pool_loop_spec (Z.to_nat k) n 0 pool [] s (Z.to_nat n)) as (H1 & H2 & H3);
      [lia | lia | lia | rewrite firstn_all2 by lia; exact Hnd |].
    destruct (pool_loop (Z.to_nat k) n 0 pool [] s) as [res s'].
    cbn [fst] in *. intros E. injection E as <-.
    split; [rewrite H1; reflexivity|]. split; [exact H2|].
    apply Forall_forall. intros x Hx. apply H3 in Hx.
    rewrite firstn_all2 in Hx by lia. apply Hin in Hx. lia.
  - assert (Hn : 0 < n).
    { apply Z.leb_gt in Es. unfold sample_setsize in Es.
      destruct (k >? 5); [pose proof (Z.pow_nonneg 4 (ceil_log4 (k * 3))); lia | lia]. }
    intros E. destruct (set_loop fuel (Z.to_nat k) lo n [] [] s) as [o s'] eqn:Eset.
    cbn [fst] in E. subst o.
    destruct (set_loop_spec _ _ _ _ _ _ _ _ _ Eset Hn) as (sel' & H1 & H2 & H3 & H4);
      [reflexivity | constructor | constructor |].
    subst l. split; [rewrite length_map, H4; reflexivity|].
    split; [apply NoDup_map_add; exact H2|].
    apply Forall_forall. intros x Hx. apply in_map_iff in Hx as (j & <- & Hj).
    rewrite Forall_forall in H3. specialize (H3 j Hj). lia.
Qed.

Lemma sample_range_errors (fuel : nat) (lo hi k : Z) (s : Rng) :
  (fst (sample_range fuel lo hi k s) = Raised OverflowError <->
   py_ssize_max < Z.max 0 (hi + 1 - lo)) /\
  (fst (sample_range fuel lo hi k s) = Raised ValueError <->
   Z.max 0 (hi + 1 - lo) <= py_ssize_max /\ (k < 0 \/ Z.max 0 (hi + 1 - lo) < k)) /\
  (fst (sample_range fuel lo hi k s) <> Raised TypeError).
Proof.
  unfold sample_range. set (n := Z.max 0 (hi + 1 - lo)).
  destruct (Z.ltb_spec py_ssize_max n) as [Hbig|Hsmall].
  { split; [split; [intros _; exact Hbig | reflexivity]|].
    split; [split; [discriminate | lia] | discriminate]. }
  destruct ((0 <=? k) && (k <=? n)) eqn:Ek; cbn [negb].
  - apply andb_true_iff in Ek as [Ek1 Ek2]. apply Z.leb_le in Ek1, Ek2.
    cbv zeta. destruct (n <=? sample_setsize k).
    + destruct (pool_loop _ _ _ _ _ _) as [r s']. cbn [fst].
      split; [split; [discriminate | lia]|].
      split; [split; [discriminate | lia] | discriminate].
    + pose proof (set_loop_no_raise fuel (Z.to_nat k) lo n [] [] s) as Hnr.
      split; [split; [intros E; exfalso; exact (Hnr _ E) | lia]|].
      split; [split; [intros E; exfalso; exact (Hnr _ E) | lia]|].
      apply Hnr.
  - apply andb_false_iff in Ek.
    split; [split; [discriminate | lia]|].
    split; [split; [intros _; split; [lia|] | reflexivity] | discriminate].
    destruct Ek as [E|E]; apply Z.leb_gt in E; lia.
Qed.

Lemma sample_range_list_branch (fuel : nat) (lo hi k : Z) (s : Rng) :
  0 <= k <= Z.max 0 (hi + 1 - lo) -> Z.max 0 (hi + 1 - lo) <= sample_setsize k ->
  Z.max 0 (hi + 1 - lo) <= py_ssize_max ->
  exists l, fst (sample_range fuel lo hi k s) = Returned l.
Proof.
  intros Hk Hs Hm. unfold sample_range.
  replace (py_ssize_max <? Z.max 0 (hi + 1 - lo)) with false
    by (symmetry; apply Z.ltb_ge; lia).
  replace ((0 <=? k) && (k <=? Z.max 0 (hi + 1 - lo))) with true
    by (symmetry; apply andb_true_iff; split; apply Z.leb_le; lia).
  replace (Z.max 0 (hi + 1 - lo) <=? sample_setsize k) with true
    by (symmetry; apply Z.leb_le; lia).
  cbn [negb]. destruct (pool_loop _ _ _ _ _ _) as [res s']. eexists. reflexivity.
Qed.

Lemma main_random_list (fuel : nat) (s : Rng) :
  exists l, fst (generate_random_numbers fuel 2 1000 100 s) = Returned l /\
    List.length l = 100%nat /\ NoDup l /\ Forall (fun x => 2 <= x <= 1000) l.
Proof.
  destruct (sample_range_list_branch fuel 2 1000 100 s) as [l Hl];
    [vm_compute; split; discriminate | vm_compute; discriminate | vm_compute; discriminate |].
  exists l. split; [exact Hl|]. exact (sample_range_result fuel 2 1000 100 s l Hl).
Qed.

(** ** Totality of the primality tests in float range *)

Lemma trial_division_total (n : Z) :
  n < float_overflow_bound -> exists b, is_prime_trial_division n = Returned b.
Proof.
  intros Hb. unfold is_prime_trial_division.
  destruct (Z.ltb_spec n 2) as [H2|H2]; [eauto|].
  destruct ((n =? 2) || (n =? 3)); [eauto|].
  destruct ((n mod 2 =? 0) || (n mod 3 =? 0)); [eauto|].
  unfold int_math_sqrt, int_to_float_overflows.
  replace (float_overflow_bound <=? Z.abs n) with false
    by (symmetry; apply Z.leb_gt; rewrite Z.abs_eq; lia).
  cbn [bind]. set (M := floor_rn_sqrt (float_of_int n)).
  destruct (wheel_loop_spec (S (Z.to_nat M)) n 1 M) as (b & Hw & _); [lia | lia |].
  replace (6 * 1 - 1) with 5 in Hw by reflexivity. eauto.
Qed.

Lemma baillie_psw_total (n : Z) :
  n < float_overflow_bound -> exists b, is_prime_baillie_psw n = Returned b.
Proof.
  intros Hb. unfold is_prime_baillie_psw.
  destruct (Z.ltb_spec n 2) as [H2|H2]; [eauto|].
  destruct ((n =? 2) || (n =? 3) || (n =? 5)); [eauto|].
  destruct ((n mod 2 =? 0) || (n mod 3 =? 0) || (n mod 5 =? 0)); [eauto|].
  rewrite (is_perfect_square_nonneg (5 * n * n + 4)) by nia. cbn [bind].
  destruct (_ =? 5 * n * n + 4); [cbn [bind]; eauto|].
  rewrite (is_perfect_square_nonneg (5 * n * n - 4)) by nia. cbn [bind].
  destruct (_ =? 5 * n * n - 4); [eauto|]. apply trial_division_total. exact Hb.
Qed.

(** * The claims *)

(** ** C1
    Round trip: for every [n > 1], [pollards_rho_factorize n] returns a list
    of factors, each at least 2, whose product is [n]; every list returned by
    [factorize_brute_force n] has the same property, and the only other
    outcome of [factorize_brute_force] is the [OverflowError] of [n ** 0.5]
    for [n] beyond float range. *)
Theorem factorization_round_trip `{Libm} (n : Z) :
  1 < n ->
  (exists l, pollards_rho_factorize n = Returned l /\ prod l = n /\
     Forall (fun f => 2 <= f) l) /\
  ((exists l, factorize_brute_force n = Returned l /\ prod l = n /\
      Forall (fun f => 2 <= f) l) \/
   (float_overflow_bound <= n /\ factorize_brute_force n = Raised OverflowError)).
Proof.
  intros Hn. split; [apply pollards_rho_factorize_spec; lia|].
  destruct (Z_lt_le_dec n float_overflow_bound) as [Hb|Hb].
  - left. destruct (brute_force_factorization n ltac:(lia) Hb) as (l & Hl & Hp & H2 & _).
    exists l. split; [exact Hl|]. split; [exact Hp | exact H2].
  - right. split; [exact Hb|]. apply brute_force_overflow. exact Hb.
Qed.

Lemma factorization_round_trip_witness :
  1 < 8051 /\
  ((exists l, pollards_rho_factorize 8051 = Returned l /\ prod l = 8051 /\
      Forall (fun f => 2 <= f) l) /\
   ((exists l, @factorize_brute_force correctly_rounded_libm 8051 = Returned l /\
       prod l = 8051 /\ Forall (fun f => 2 <= f) l) \/
    (float_overflow_bound <= 8051 /\
     @factorize_brute_force correctly_rounded_libm 8051 = Raised OverflowError))).
Proof. split; [lia | apply (@factorization_round_trip correctly_rounded_libm 8051); lia]. Defined.

(** ** C2 (code bug)
    [factorize_brute_force] does not always return a prime factorization.
    On [n = (2^62 + 169) * (2^62 + 187)], the product of two primes,
    [float(n) = 2^124] and [int(n ** 0.5)] is [2^62] with any C library
    whose [pow(2^124, 0.5)] is below [2^62 + 169] (an exact power of two:
    the IEEE square root gives [2^62]).  The loop stops short of the
    smaller factor, no [i] divides [n], and the result is [[n]], a
    composite number.  [math.isqrt(n) = 2^62 + 177] would have reached the
    factor. *)
Theorem brute_force_returns_composite `{Libm} :
  pow_half (2 ^ 124) < 2 ^ 62 + 169 ->
  float_of_int n_float_gap = 2 ^ 124 /\
  factorize_brute_force n_float_gap = Returned [n_float_gap] /\
  ~ Z.prime n_float_gap.
Proof.
  intros Hpow. split; [exact n_float_gap_float|]. split; [|exact n_float_gap_not_prime].
  unfold factorize_brute_force, int_pow_half.
  replace (int_to_float_overflows n_float_gap) with false by (vm_compute; reflexivity).
  replace (n_float_gap <? 0) with false by (vm_compute; reflexivity).
  rewrite n_float_gap_float. cbn [bind].
  rewrite trial_loop_nodiv.
  - cbn [bind]. replace (n_float_gap >? 1) with true by (vm_compute; reflexivity).
    reflexivity.
  - lia.
  - intros d Hd. apply n_float_gap_no_small_divisor. lia.
Qed.

Lemma brute_force_returns_composite_witness :
  @pow_half correctly_rounded_libm (2 ^ 124) < 2 ^ 62 + 169 /\
  float_of_int n_float_gap = 2 ^ 124 /\
  @factorize_brute_force correctly_rounded_libm n_float_gap = Returned [n_float_gap] /\
  ~ Z.prime n_float_gap.
Proof.
  assert (Hp : @pow_half correctly_rounded_libm (2 ^ 124) < 2 ^ 62 + 169)
    by (vm_compute; reflexivity).
  split; [exact Hp|]. apply (@brute_force_returns_composite correctly_rounded_libm). exact Hp.
Defined.

(** ** C3 (counterexample)
    The Baillie-PSW-style strategy does not report every listed prime as
    prime: it rejects 13, since [5 * 13^2 - 4 = 29^2]. *)
Lemma baillie_psw_rejects_13 :
  ~ (forall n, In n [2; 3; 5; 7; 11; 13; 17; 19; 23] ->
       is_prime_baillie_psw n = Returned true).
Proof.
  intros H. specialize (H 13 ltac:(simpl; tauto)). vm_compute in H. discriminate.
Qed.

(** ** C3 (amended)
    Through the dispatch table (Miller-Rabin with its default [k = 5]),
    whatever the random draws: every strategy reports the listed primes as
    prime, except that the Baillie-PSW-style strategy reports 13 as not
    prime; every strategy reports 4, 6, 8, 9, 10 and 12 as not prime. *)
Theorem primality_consistency (s : Rng) :
  (forall method n, In method [1; 2; 3] -> In n [2; 3; 5; 7; 11; 13; 17; 19; 23] ->
     (method = 2 -> n <> 13) ->
     fst (call (fst (get_prime_check_method method)) n s) = Returned true) /\
  fst (call (fst (get_prime_check_method 2)) 13 s) = Returned false /\
  (forall method n, In method [1; 2; 3] -> In n [4; 6; 8; 9; 10; 12] ->
     fst (call (fst (get_prime_check_method method)) n s) = Returned false).
Proof.
  split; [|split].
  - intros method n Hm Hn H13. destruct Hm as [<-|[<-|[<-|[]]]].
    + change (fst (miller_rabin_test n 5 s) = Returned true).
      apply miller_rabin_prime_true. apply sympy_isprime_spec.
      repeat (destruct Hn as [<-|Hn]; [vm_compute; reflexivity|]). destruct Hn.
    + change (is_prime_baillie_psw n = Returned true).
      repeat (destruct Hn as [<-|Hn]; [try (vm_compute; reflexivity)|]);
        [exfalso; apply H13; reflexivity | destruct Hn].
    + change (is_prime_aks n = Returned true).
      repeat (destruct Hn as [<-|Hn]; [vm_compute; reflexivity|]). destruct Hn.
  - vm_compute. reflexivity.
  - intros method n Hm Hn. destruct Hm as [<-|[<-|[<-|[]]]].
    + change (fst (miller_rabin_test n 5 s) = Returned false).
      repeat (destruct Hn as [<-|Hn];
        [eapply miller_rabin_all_witnesses;
           [lia | lia | reflexivity | vm_compute; reflexivity]|]).
      destruct Hn.
    + change (is_prime_baillie_psw n = Returned false).
      repeat (destruct Hn as [<-|Hn]; [vm_compute; reflexivity|]). destruct Hn.
    + change (is_prime_aks n = Returned false).
      repeat (destruct Hn as [<-|Hn]; [vm_compute; reflexivity|]). destruct Hn.
Qed.

(** ** C4
    Miller-Rabin has no false negatives: for a prime [n], any round count
    [k] and any stream of random draws (so any bases of [[2, n - 2]]),
    [miller_rabin_test n k] returns [True]. *)
Theorem miller_rabin_no_false_negative (n k : Z) (s : Rng) :
  Z.prime n -> 1 <= k -> fst (miller_rabin_test n k s) = Returned true.
Proof. intros Hp _. apply miller_rabin_prime_true. exact Hp. Qed.

Lemma miller_rabin_no_false_negative_witness :
  Z.prime 97 /\ 1 <= 5 /\
  fst (miller_rabin_test 97 5 (fun i => Z.of_nat i)) = Returned true.
Proof.
  assert (Hp : Z.prime 97) by (apply sympy_isprime_spec; vm_compute; reflexivity).
  split; [exact Hp|]. split; [lia|].
  apply (miller_rabin_no_false_negative 97 5); [exact Hp | lia].
Defined.

(** ** C5
    On a prime [n], [pollards_rho_factorize] terminates and returns [[n]]. *)
Theorem pollards_rho_prime_singleton (n : Z) :
  Z.prime n -> pollards_rho_factorize n = Returned [n].
Proof.
  intros Hp. pose proof (Z.prime_ge_2 _ Hp) as H2.
  destruct (pollard_rho_spec n H2) as (d & Hd & Hd2 & Hdn).
  assert (Hdeq : d = n) by (apply Z.divide_prime_r in Hdn; auto; lia).
  subst d. unfold pollards_rho_factorize.
  destruct (Z.to_nat n) as [|[|m]] eqn:E; [lia | lia |].
  cbn [rho_factor_loop].
  replace (n >? 1) with true by (symmetry; apply Z.gtb_lt; lia).
  rewrite Hd. cbn [bind]. rewrite Z.div_same by lia. reflexivity.
Qed.

Lemma pollards_rho_prime_singleton_witness :
  Z.prime 10007 /\ pollards_rho_factorize 10007 = Returned [10007].
Proof.
  assert (Hp : Z.prime 10007) by (apply sympy_isprime_spec; vm_compute; reflexivity).
  split; [exact Hp|]. apply (pollards_rho_prime_singleton 10007). exact Hp.
Defined.

(** ** C6
    The Baillie-PSW-style strategy is not total on non-negative integers:
    on [2^1100 + 1] (odd, not a multiple of 3 or 5, [5n^2 +- 4] not
    squares) [int(math.sqrt(n))] in [is_prime_trial_division] raises
    [OverflowError]. *)
Theorem baillie_psw_raises_on_large_input :
  is_prime_baillie_psw (2 ^ 1100 + 1) = Raised OverflowError.
Proof. vm_compute. reflexivity. Qed.

(** ** C7 (code bug)
    The Baillie-PSW-style strategy does not run the wheel up to
    [floor(sqrt(n))]: [is_prime_trial_division] bounds it by
    [int(math.sqrt(n))], the square root of [float(n)].  On
    [n = (2^62 + 169) * (2^62 + 187)] (odd, not a multiple of 3 or 5,
    [5n^2 +- 4] not squares) that bound is [2^62] while
    [floor(sqrt(n)) = 2^62 + 177]; the wheel up to [floor(sqrt(n))] would
    reach the factor [2^62 + 169 = 6k - 1], but the code's wheel stops
    before it and returns [True] on this composite. *)
Theorem baillie_psw_accepts_composite :
  n_float_gap mod 2 <> 0 /\ n_float_gap mod 3 <> 0 /\ n_float_gap mod 5 <> 0 /\
  is_perfect_square (5 * n_float_gap * n_float_gap + 4) = Returned false /\
  is_perfect_square (5 * n_float_gap * n_float_gap - 4) = Returned false /\
  int_math_sqrt n_float_gap = Returned (2 ^ 62) /\
  Z.sqrt n_float_gap = 2 ^ 62 + 177 /\
  ~ wheel_prop n_float_gap (Z.sqrt n_float_gap) /\
  is_prime_baillie_psw n_float_gap = Returned true /\
  ~ Z.prime n_float_gap.
Proof.
  assert (Hsqrt : Z.sqrt n_float_gap = 2 ^ 62 + 177) by (vm_compute; reflexivity).
  split; [vm_compute; discriminate|]. split; [vm_compute; discriminate|].
  split; [vm_compute; discriminate|].
  split; [vm_compute; reflexivity|]. split; [vm_compute; reflexivity|].
  split; [vm_compute; reflexivity|]. split; [exact Hsqrt|].
  split.
  { intros Hw. rewrite Hsqrt in Hw.
    destruct (Hw 768614336404564679) as [Hm _]; [lia | lia |].
    apply Hm. vm_compute. reflexivity. }
  split; [|exact n_float_gap_not_prime].
  rewrite baillie_psw_core by (vm_compute; discriminate).
  replace ((Z.sqrt (5 * n_float_gap * n_float_gap + 4) *
            Z.sqrt (5 * n_float_gap * n_float_gap + 4) =? 5 * n_float_gap * n_float_gap + 4) ||
           (Z.sqrt (5 * n_float_gap * n_float_gap - 4) *
            Z.sqrt (5 * n_float_gap * n_float_gap - 4) =? 5 * n_float_gap * n_float_gap - 4))
    with false by (vm_compute; reflexivity).
  unfold is_prime_trial_division.
  replace (n_float_gap <? 2) with false by (vm_compute; reflexivity).
  replace ((n_float_gap =? 2) || (n_float_gap =? 3)) with false by (vm_compute; reflexivity).
  replace ((n_float_gap mod 2 =? 0) || (n_float_gap mod 3 =? 0)) with false
    by (vm_compute; reflexivity).
  replace (int_math_sqrt n_float_gap) with (Returned (2 ^ 62)) by (vm_compute; reflexivity).
  cbn [bind].
  destruct (wheel_loop_spec (S (Z.to_nat (2 ^ 62))) n_float_gap 1 (2 ^ 62)) as (b & Hw & Hiff);
    [lia | lia |].
  replace (6 * 1 - 1) with 5 in Hw by reflexivity. rewrite Hw. f_equal. apply Hiff.
  intros k Hk Hm. split; apply n_float_gap_no_small_divisor; lia.
Qed.

(** ** C8
    An identifier outside the valid set makes the selector print
    ["Invalid method selected."] and return [None]; every driver then stops
    on the [TypeError] of calling [None] (or, on an empty batch, does
    nothing): it prints no result, computes nothing on the input integers
    and leaves the random state untouched. *)
Theorem invalid_strategy_aborts `{Libm} (method : Z) :
  (method <> 1 -> method <> 2 ->
   get_factor_method method = (None, [Msg "Invalid method selected."]) /\
   (forall num s, factor_num method num s =
      ([Msg "Invalid method selected."], Raised TypeError, s)) /\
   (forall nums s, factor_nums method nums s =
      ([Msg "Invalid method selected."],
       match nums with [] => Returned tt | _ => Raised TypeError end, s))) /\
  (method <> 1 -> method <> 2 -> method <> 3 ->
   get_prime_check_method method = (None, [Msg "Invalid method selected."]) /\
   (forall num s, check_if_num_prime method num s =
      ([Msg "Invalid method selected."], Raised TypeError, s)) /\
   (forall nums s, check_if_numslist_prime method nums s =
      ([Msg "Invalid method selected."],
       match nums with [] => Returned tt | _ => Raised TypeError end, s))).
Proof.
  split.
  - intros H1 H2.
    assert (E : get_factor_method method = (None, [Msg "Invalid method selected."])).
    { unfold get_factor_method.
      rewrite (proj2 (Z.eqb_neq _ _) H1), (proj2 (Z.eqb_neq _ _) H2). reflexivity. }
    split; [exact E|]. split.
    + intros num s. unfold factor_num. rewrite E. reflexivity.
    + intros nums s. unfold factor_nums. rewrite E. destruct nums; reflexivity.
  - intros H1 H2 H3.
    assert (E : get_prime_check_method method = (None, [Msg "Invalid method selected."])).
    { unfold get_prime_check_method.
      rewrite (proj2 (Z.eqb_neq _ _) H1), (proj2 (Z.eqb_neq _ _) H2),
        (proj2 (Z.eqb_neq _ _) H3). reflexivity. }
    split; [exact E|]. split.
    + intros num s. unfold check_if_num_prime. rewrite E. reflexivity.
    + intros nums s. unfold check_if_numslist_prime. rewrite E.
      destruct nums; reflexivity.
Qed.

(** ** C9 (code bug)
    [factorize_brute_force] raises on a negative input: [(-1) ** 0.5] is a
    complex number and [int()] of it raises [TypeError], while
    [pollards_rho_factorize(-1)] returns [[]]. *)
Theorem brute_force_negative_raises `{Libm} :
  factorize_brute_force (-1) = Raised TypeError /\ pollards_rho_factorize (-1) = Returned [].
Proof. split; reflexivity. Qed.

(** ** C10
    [pollards_rho_factorize] consults no random source: through the dispatch
    table its result depends on [n] alone, whatever the random state, and
    the random state is left unchanged, so two invocations agree. *)
Theorem pollards_rho_deterministic `{Libm} (n : Z) (s1 s2 : Rng) :
  call (fst (get_factor_method 2)) n s1 = (pollards_rho_factorize n, s1) /\
  fst (call (fst (get_factor_method 2)) n s1) =
  fst (call (fst (get_factor_method 2)) n s2).
Proof. split; reflexivity. Qed.

(** * Further properties of the code *)

(** ** X1
    In float range, [is_prime_trial_division(p)] returns true on every
    prime [p]: whatever the rounding of [math.sqrt], the wheel stops below
    [p], so it never tries [p] itself. *)
Theorem trial_division_accepts_primes (p : Z) :
  Z.prime p -> p < float_overflow_bound -> is_prime_trial_division p = Returned true.
Proof. exact (trial_division_prime p). Qed.

Lemma trial_division_accepts_primes_witness :
  Z.prime 97 /\ 97 < float_overflow_bound /\ is_prime_trial_division 97 = Returned true.
Proof.
  assert (Hp : Z.prime 97) by (apply sympy_isprime_spec; vm_compute; reflexivity).
  assert (Hb : 97 < float_overflow_bound) by (vm_compute; reflexivity).
  split; [exact Hp|]. split; [exact Hb|].
  apply (trial_division_accepts_primes 97); [exact Hp | exact Hb].
Defined.

(** ** X2
    In float range, [is_prime_trial_division(n)] and
    [is_prime_baillie_psw(n)] end and return a boolean: they raise
    nothing. *)
Theorem primality_tests_total_in_float_range (n : Z) :
  n < float_overflow_bound ->
  (exists b, is_prime_trial_division n = Returned b) /\
  (exists b, is_prime_baillie_psw n = Returned b).
Proof.
  intros Hb. split; [apply trial_division_total | apply baillie_psw_total]; exact Hb.
Qed.

Lemma primality_tests_total_in_float_range_witness :
  1000003 < float_overflow_bound /\
  (exists b, is_prime_trial_division 1000003 = Returned b) /\
  (exists b, is_prime_baillie_psw 1000003 = Returned b).
Proof.
  assert (Hb : 1000003 < float_overflow_bound) by (vm_compute; reflexivity).
  split; [exact Hb|]. apply (primality_tests_total_in_float_range 1000003). exact Hb.
Defined.

(** ** X3
    For a prime [p > 5] in float range, [is_prime_baillie_psw(p)] returns
    false exactly when [5 p^2 + 4] or [5 p^2 - 4] is a perfect square, and
    true otherwise. *)
Theorem baillie_psw_rejects_square_primes (p : Z) :
  Z.prime p -> 5 < p -> p < float_overflow_bound ->
  exists b, is_prime_baillie_psw p = Returned b /\
    (b = false <-> exists m, m * m = 5 * p * p + 4 \/ m * m = 5 * p * p - 4).
Proof. exact (baillie_psw_prime p). Qed.

Lemma baillie_psw_rejects_square_primes_witness :
  Z.prime 13 /\ 5 < 13 /\ 13 < float_overflow_bound /\
  exists b, is_prime_baillie_psw 13 = Returned b /\
    (b = false <-> exists m, m * m = 5 * 13 * 13 + 4 \/ m * m = 5 * 13 * 13 - 4).
Proof.
  assert (Hp : Z.prime 13) by (apply sympy_isprime_spec; vm_compute; reflexivity).
  assert (Hb : 13 < float_overflow_bound) by (vm_compute; reflexivity).
  split; [exact Hp|]. split; [lia|]. split; [exact Hb|].
  apply (baillie_psw_rejects_square_primes 13); [exact Hp | lia | exact Hb].
Defined.

(** ** X4
    [is_perfect_square(n)] raises [ValueError] (from [math.isqrt]) for a
    negative [n]; for [n >= 0] it returns true exactly when [n = k * k] for
    some integer [k]. *)
Theorem perfect_square_test_exact (n : Z) :
  (n < 0 /\ is_perfect_square n = Raised ValueError) \/
  (0 <= n /\ exists b, is_perfect_square n = Returned b /\ (b = true <-> exists k, k * k = n)).
Proof. exact (is_perfect_square_total n). Qed.

(** ** X5
    For [1 <= n] in float range, [factorize_brute_force(n)] returns a
    nondecreasing list of factors, each at least 2, with product [n], all
    of them prime except possibly the last (the cofactor left when the loop
    ends at [int(n ** 0.5)]); this holds whatever [pow] returns. *)
Theorem brute_force_sorted_factorization `{Libm} (n : Z) :
  1 <= n -> n < float_overflow_bound ->
  exists l, factorize_brute_force n = Returned l /\ prod l = n /\
    Forall (fun f => 2 <= f) l /\ Sorted Z.le l /\ Forall Z.prime (removelast l).
Proof. exact (brute_force_factorization n). Qed.

Lemma brute_force_sorted_factorization_witness :
  1 <= 360 /\ 360 < float_overflow_bound /\
  exists l, @factorize_brute_force correctly_rounded_libm 360 = Returned l /\ prod l = 360 /\
    Forall (fun f => 2 <= f) l /\ Sorted Z.le l /\ Forall Z.prime (removelast l).
Proof.
  assert (Hb : 360 < float_overflow_bound) by (vm_compute; reflexivity).
  split; [lia|]. split; [exact Hb|].
  apply (@brute_force_sorted_factorization correctly_rounded_libm 360); [lia | exact Hb].
Defined.

(** ** X6
    For [n >= 2], the inner loop [pollard_rho(n)] ends and returns a
    divisor [d] of [n] with [2 <= d <= n]. *)
Theorem pollard_rho_returns_divisor (n : Z) :
  2 <= n -> exists d, pollard_rho n = Returned d /\ 2 <= d <= n /\ (d | n).
Proof. exact (pollard_rho_divisor n). Qed.

Lemma pollard_rho_returns_divisor_witness :
  2 <= 8051 /\ exists d, pollard_rho 8051 = Returned d /\ 2 <= d <= 8051 /\ (d | 8051).
Proof. split; [lia|]. apply (pollard_rho_returns_divisor 8051). lia. Defined.

(** ** X7
    The local [gcd(a, b)] of [pollards_rho_factorize] returns the greatest
    common divisor of [a] and [b] for [a, b >= 0]. *)
Theorem local_gcd_computes_gcd (a b : Z) :
  0 <= a -> 0 <= b -> py_gcd (S (Z.to_nat b)) a b = Returned (Z.gcd a b).
Proof. exact (py_gcd_loop a b). Qed.

Lemma local_gcd_computes_gcd_witness :
  0 <= 12 /\ 0 <= 18 /\ py_gcd (S (Z.to_nat 18)) 12 18 = Returned (Z.gcd 12 18).
Proof. split; [lia|]. split; [lia|]. apply (local_gcd_computes_gcd 12 18); lia. Defined.

(** ** X8
    For [n >= 2], the loop of [miller_rabin_test] that halves [d] writes
    [n - 1] as [2^r * d] with [d] odd and [r >= 0]. *)
Theorem miller_rabin_decomposition (n : Z) :
  2 <= n ->
  exists r d, two_adic (S (Z.to_nat (n - 1))) 0 (n - 1) = Returned (r, d) /\
    n - 1 = 2 ^ r * d /\ d mod 2 = 1 /\ 0 <= r.
Proof. exact (two_adic_decomposition n). Qed.

Lemma miller_rabin_decomposition_witness :
  2 <= 97 /\
  exists r d, two_adic (S (Z.to_nat (97 - 1))) 0 (97 - 1) = Returned (r, d) /\
    97 - 1 = 2 ^ r * d /\ d mod 2 = 1 /\ 0 <= r.
Proof. split; [lia|]. apply (miller_rabin_decomposition 97). lia. Defined.

(** ** X9
    With [k <= 0] rounds, [miller_rabin_test(n, k)] returns true for every
    [n > 1], composite or not, and draws no random number. *)
Theorem miller_rabin_zero_rounds_accepts (n k : Z) (s : Rng) :
  k <= 0 -> 1 < n -> miller_rabin_test n k s = (Returned true, s).
Proof. exact (miller_rabin_no_rounds n k s). Qed.

Lemma miller_rabin_zero_rounds_accepts_witness :
  0 <= 0 /\ 1 < 9 /\ miller_rabin_test 9 0 (fun _ => 0) = (Returned true, fun _ => 0).
Proof. split; [lia|]. split; [lia|]. apply (miller_rabin_zero_rounds_accepts 9 0); lia. Defined.

(** ** X10
    [miller_rabin_test(n, k)] draws at most [max(k, 0)] random numbers:
    the generator afterwards is the one before, advanced by some
    [m <= k] draws. *)
Theorem miller_rabin_draws_at_most_k (n k : Z) (s : Rng) :
  exists m, (m <= Z.to_nat k)%nat /\
    forall i, snd (miller_rabin_test n k s) i = s (m + i)%nat.
Proof. exact (miller_rabin_draws n k s). Qed.

(** ** X11
    On a prime [n > 3], [miller_rabin_test(n, k)] runs all its rounds and
    draws exactly [max(k, 0)] random numbers. *)
Theorem miller_rabin_prime_draws_k (n k : Z) (s : Rng) :
  Z.prime n -> 3 < n ->
  forall i, snd (miller_rabin_test n k s) i = s (Z.to_nat k + i)%nat.
Proof. exact (miller_rabin_prime_draws n k s). Qed.

Lemma miller_rabin_prime_draws_k_witness :
  Z.prime 97 /\ 3 < 97 /\
  snd (miller_rabin_test 97 5 (fun i => Z.of_nat i)) O = Z.of_nat (Z.to_nat 5 + 0).
Proof.
  assert (Hp : Z.prime 97) by (apply sympy_isprime_spec; vm_compute; reflexivity).
  split; [exact Hp|]. split; [lia|].
  apply (miller_rabin_prime_draws_k 97 5 (fun i => Z.of_nat i)); [exact Hp | lia].
Defined.

(** ** X12
    [factor_nums(2, nums)] never fails: it prints the header
    ["Pollards Rho Algorithm:"], then one line ["Factors of n: ..."] per
    input, in input order, each with the list [pollards_rho_factorize(n)]
    returns, and leaves the random generator alone. *)
Theorem factor_nums_pollard_prints_all `{Libm} (nums : list Z) (s : Rng) :
  exists ls, Forall2 (fun n l => pollards_rho_factorize n = Returned l) nums ls /\
    factor_nums 2 nums s =
      (Msg "Pollards Rho Algorithm:" :: map (fun '(n, l) => FactorsOf n l) (combine nums ls),
       Returned tt, s).
Proof. exact (factor_nums_pollard nums s). Qed.

(** ** X13
    [factor_nums(1, nums)] with a negative number anywhere in [nums] prints
    only the header and raises: no ["Factors of"] line is printed, not even
    for the valid numbers before it, since all results are computed before
    the first is printed. *)
Theorem factor_nums_brute_force_aborts `{Libm} (nums : list Z) (s : Rng) :
  (exists n, In n nums /\ n < 0) ->
  exists e, factor_nums 1 nums s = ([Msg "Brute Force Factorization:"], Raised e, s).
Proof. exact (factor_nums_brute_force_abort nums s). Qed.

Lemma factor_nums_brute_force_aborts_witness :
  (exists n, In n [10; -3] /\ n < 0) /\
  exists e, @factor_nums correctly_rounded_libm 1 [10; -3] (fun _ => 0) =
    ([Msg "Brute Force Factorization:"], Raised e, fun _ => 0).
Proof.
  assert (H : exists n, In n [10; -3] /\ n < 0) by (exists (-3); split; [simpl; auto | lia]).
  split; [exact H|]. apply (@factor_nums_brute_force_aborts correctly_rounded_libm [10; -3]). exact H.
Defined.

(** ** X14
    [check_if_numslist_prime(1, ps)] on a list of primes prints the header
    and then ["p is prime: True"] for every [p] of the list, in order,
    whatever the random bases drawn. *)
Theorem check_numslist_mr_on_primes (ps : list Z) (s : Rng) :
  Forall Z.prime ps ->
  exists s', check_if_numslist_prime 1 ps s =
    (Msg "Miller-Rabin Primality Test:" :: map (fun p => IsPrime p true) ps, Returned tt, s').
Proof. exact (check_numslist_miller_rabin_primes ps s). Qed.

Lemma check_numslist_mr_on_primes_witness :
  Forall Z.prime [2; 3; 97] /\
  exists s', check_if_numslist_prime 1 [2; 3; 97] (fun i => Z.of_nat i) =
    (Msg "Miller-Rabin Primality Test:" :: map (fun p => IsPrime p true) [2; 3; 97],
     Returned tt, s').
Proof.
  assert (H : Forall Z.prime [2; 3; 97])
    by (repeat constructor; apply sympy_isprime_spec; vm_compute; reflexivity).
  split; [exact H|]. apply (check_numslist_mr_on_primes [2; 3; 97]). exact H.
Defined.

(** ** X15
    [check_if_numslist_prime(method, [n])] prints, raises and draws
    exactly what [check_if_num_prime(method, n)] does, for every method. *)
Theorem check_single_matches_list (method n : Z) (s : Rng) :
  check_if_numslist_prime method [n] s = check_if_num_prime method n s.
Proof. exact (check_numslist_singleton method n s). Qed.

(** ** X16
    [generate_random_numbers(lower, upper, k)] raises [OverflowError]
    exactly when the range [max(0, upper - lower + 1)] is longer than
    [sys.maxsize] ([len()] of the population fails first), and otherwise
    raises [ValueError] exactly when [k < 0] or [k] exceeds the size of the
    range; it never raises [TypeError]. *)
Theorem generate_random_numbers_raises (fuel : nat) (lower upper k : Z) (s : Rng) :
  (fst (generate_random_numbers fuel lower upper k s) = Raised OverflowError <->
   py_ssize_max < Z.max 0 (upper + 1 - lower)) /\
  (fst (generate_random_numbers fuel lower upper k s) = Raised ValueError <->
   Z.max 0 (upper + 1 - lower) <= py_ssize_max /\
   (k < 0 \/ Z.max 0 (upper + 1 - lower) < k)) /\
  fst (generate_random_numbers fuel lower upper k s) <> Raised TypeError.
Proof. exact (sample_range_errors fuel lower upper k s). Qed.

(** ** X17
    Every list [generate_random_numbers(lower, upper, k)] returns has
    exactly [k] elements, all distinct and all in [[lower, upper]]; this
    holds for every bound [fuel] on the redraws of the set branch. *)
Theorem generate_random_numbers_distinct (fuel : nat) (lower upper k : Z) (s : Rng)
  (l : list Z) :
  fst (generate_random_numbers fuel lower upper k s) = Returned l ->
  List.length l = Z.to_nat k /\ NoDup l /\ Forall (fun x => lower <= x <= upper) l.
Proof. exact (sample_range_result fuel lower upper k s l). Qed.

Lemma generate_random_numbers_distinct_witness :
  fst (generate_random_numbers 2000 1 1000 2 (fun i => if (i <? 1002)%nat then 0 else 1)) =
    Returned [1; 2] /\
  List.length [1; 2] = Z.to_nat 2 /\ NoDup [1; 2] /\ Forall (fun x => 1 <= x <= 1000) [1; 2].
Proof.
  assert (H : fst (generate_random_numbers 2000 1 1000 2
                     (fun i => if (i <? 1002)%nat then 0 else 1)) = Returned [1; 2])
    by (vm_compute; reflexivity).
  split; [exact H|].
  apply (generate_random_numbers_distinct 2000 1 1000 2
           (fun i => if (i <? 1002)%nat then 0 else 1)). exact H.
Defined.

(** ** X18
    The script's call [generate_random_numbers(2, 1000, 100)] returns, for
    every random state, a list of 100 distinct integers of [[2, 1000]]: it
    takes the list branch of [random.sample], which never redraws. *)
Theorem main_random_list_distinct (fuel : nat) (s : Rng) :
  exists l, fst (generate_random_numbers fuel 2 1000 100 s) = Returned l /\
    List.length l = 100%nat /\ NoDup l /\ Forall (fun x => 2 <= x <= 1000) l.
Proof. exact (main_random_list fuel s). Qed.
